(** * o2copilot: template matcher and citation validator

    A shallow embedding of the two algorithms of the repository:
    - [src/letters_templates_v2.py]: the JSON-configured letter-template
      registry ([LetterTemplateManagerV2]) and its matcher;
    - [src/app.py]: the citation post-processor [process_sources] and the
      error boundary of the [/api/messages] handler.

    Python [str] values are lists of Unicode code points.  The regular
    expressions of the source are sequences of literals, greedy character
    classes and one lazy group; they are embedded as such and run by a
    backtracking matcher under a common [re.search] / [re.findall] /
    [re.sub] scanning engine. *)

From Stdlib Require Import ZArith NArith QArith List Bool Lia String Ascii.
From Stdlib Require Import Sorted Permutation.
From stdpp Require Import base option list gmap.

Local Open Scope N_scope.
Local Set Warnings "-register-all".

(** ** Python strings *)

Module PyStr.

(** A Python [str] is a sequence of code points. *)
Abbreviation char := N (only parsing).
Abbreviation str := (list N) (only parsing).

(** Source literals are written as UTF-8 text and decoded to code points. *)
Fixpoint utf8_decode (bs : list N) : str :=
  match bs with
  | [] => []
  | b0 :: r =>
      if b0 <? 128 then b0 :: utf8_decode r
      else if b0 <? 224 then
        match r with
        | b1 :: r1 => ((b0 - 192) * 64 + (b1 - 128)) :: utf8_decode r1
        | _ => []
        end
      else if b0 <? 240 then
        match r with
        | b1 :: b2 :: r2 =>
            ((b0 - 224) * 4096 + (b1 - 128) * 64 + (b2 - 128)) :: utf8_decode r2
        | _ => []
        end
      else
        match r with
        | b1 :: b2 :: b3 :: r3 =>
            ((b0 - 240) * 262144 + (b1 - 128) * 4096 + (b2 - 128) * 64 + (b3 - 128))
              :: utf8_decode r3
        | _ => []
        end
  end.

Definition lit (s : string) : str :=
  utf8_decode (map N_of_ascii (list_ascii_of_string s)).

(** [str.isspace] / [\s]: CPython's [Py_UNICODE_ISSPACE]. *)
Definition isspace (c : N) : bool :=
  ((9 <=? c) && (c <=? 13)) || ((28 <=? c) && (c <=? 32))
  || (c =? 133) || (c =? 160) || (c =? 5760)
  || ((8192 <=? c) && (c <=? 8202))
  || (c =? 8232) || (c =? 8233) || (c =? 8239) || (c =? 8287) || (c =? 12288).

(** [str.isdecimal] / [\d]: the first code point of every run of decimal
    digits (Unicode category Nd, Unicode 14); each run has ten digits,
    except the fifty mathematical digits from U+1D7CE. *)
Definition decimal_runs : list N :=
  [ 48; 1632; 1776; 1984; 2406; 2534; 2662; 2790; 2918; 3046; 3174; 3302;
    3430; 3558; 3664; 3792; 3872; 4160; 4240; 6112; 6160; 6470; 6608; 6784;
    6800; 6992; 7088; 7232; 7248; 42528; 43216; 43264; 43472; 43504; 43600;
    44016; 65296; 66720; 68912; 69734; 69872; 69942; 70096; 70384; 70736;
    70864; 71248; 71360; 71472; 71904; 72016; 72784; 73040; 73120; 92768;
    92864; 93008; 120782; 120792; 120802; 120812; 120822; 123200; 123632;
    125264; 130032 ].

Definition isdecimal (c : N) : bool :=
  existsb (fun lo => (lo <=? c) && (c <? lo + 10)) decimal_runs.

(** Equality of strings, [==]. *)
Fixpoint str_eqb (a b : str) : bool :=
  match a, b with
  | [], [] => true
  | x :: a', y :: b' => (x =? y) && str_eqb a' b'
  | _, _ => false
  end.

(** [s.startswith(p)]. *)
Fixpoint starts_with (p s : str) : bool :=
  match p, s with
  | [], _ => true
  | x :: p', y :: s' => (x =? y) && starts_with p' s'
  | _ :: _, [] => false
  end.

(** [needle in hay]: substring containment. *)
Fixpoint str_in (needle hay : str) : bool :=
  starts_with needle hay ||
  match hay with
  | [] => false
  | _ :: hay' => str_in needle hay'
  end.

(** [s.find(p)]: the index of the first occurrence of [p] in [s]. *)
Fixpoint find_first (p s : str) : option nat :=
  if starts_with p s then Some O
  else match s with
       | [] => None
       | _ :: s' => S <$> find_first p s'
       end.

(** The number of leading characters of [s] in the class [f]: how far a
    greedy [[class]*] runs. *)
Fixpoint span (f : N -> bool) (s : str) : nat :=
  match s with
  | c :: s' => if f c then S (span f s') else O
  | [] => O
  end.

(** [s.split(sep)[-1]] for a one-character separator. *)
Fixpoint last_segment (sep : N) (s : str) : str :=
  match s with
  | [] => []
  | c :: s' =>
      if existsb (N.eqb sep) s' then last_segment sep s'
      else if c =? sep then s' else s
  end.

(** [s.replace(c, r)] for a one-character needle. *)
Definition replace_char (c : N) (r : str) (s : str) : str :=
  flat_map (fun x => if x =? c then r else [x]) s.

(** [s.strip()]. *)
Definition lstrip (s : str) : str := drop (span isspace s) s.
Definition rstrip (s : str) : str := rev (lstrip (rev s)).
Definition strip (s : str) : str := rstrip (lstrip s).

End PyStr.

(** ** The regular expressions of the source *)

Module Re.
Import PyStr.

(** The pieces the source's patterns are made of: a literal, a greedy
    character class repeated at least [lo] times ([\s*], [\d+], [[^>]+]),
    and the lazy capturing group [(.*?)] under [re.DOTALL]. *)
Inductive piece : Type :=
  | Lit (p : str)
  | Class (f : N -> bool) (lo : nat)
  | LazyDot.

(** A greedy class first takes every character it can ([k] of them) and
    gives characters back one at a time while the rest of the pattern
    fails. *)
Definition try_greedy (cont : str -> option (nat * str)) (s : str) (lo : nat) :=
  fix go (k : nat) : option (nat * str) :=
    match cont (drop k s) with
    | Some (n, g) => Some ((k + n)%nat, g)
    | None =>
        match k with
        | O => None
        | S k' => if (lo <=? k')%nat then go k' else None
        end
    end.

(** A lazy group first takes nothing and takes one more character each
    time the rest of the pattern fails. *)
Definition try_lazy (cont : str -> option (nat * str)) :=
  fix go (s : str) : option (nat * str) :=
    match cont s with
    | Some (n, _) => Some (n, [])
    | None =>
        match s with
        | [] => None
        | c :: s' =>
            match go s' with
            | Some (n, g) => Some (S n, c :: g)
            | None => None
            end
        end
    end.

(** Anchored match of a pattern at the head of [s]: the length of the
    match and the text of group 1 (empty when the pattern has no group). *)
Fixpoint match_pieces (ps : list piece) : str -> option (nat * str) :=
  match ps with
  | [] => fun _ => Some (O, [])
  | Lit p :: ps' => fun s =>
      if starts_with p s then
        match match_pieces ps' (drop (length p) s) with
        | Some (n, g) => Some ((length p + n)%nat, g)
        | None => None
        end
      else None
  | Class f lo :: ps' => fun s =>
      let k := span f s in
      if (lo <=? k)%nat then try_greedy (match_pieces ps') s lo k else None
  | LazyDot :: ps' => try_lazy (match_pieces ps')
  end.

(** [re.search(p, s)]: the leftmost match; its group 1. *)
Fixpoint search (ps : list piece) (s : str) : option str :=
  match match_pieces ps s with
  | Some (_, g) => Some g
  | None =>
      match s with
      | [] => None
      | _ :: s' => search ps s'
      end
  end.

(** [re.findall(p, s)] for a pattern with one group: group 1 of every
    match, left to right, each search starting where the last match
    ended.  [skip] counts the characters of the last match still to pass. *)
Fixpoint findall_from (ps : list piece) (s : str) (skip : nat) : list str :=
  match s with
  | [] => []
  | _ :: s' =>
      match skip with
      | S k => findall_from ps s' k
      | O =>
          match match_pieces ps s with
          | Some (n, g) => g :: findall_from ps s' (pred n)
          | None => findall_from ps s' O
          end
      end
  end.

Definition findall (ps : list piece) (s : str) : list str := findall_from ps s O.

(** [re.sub(p, repl, s)] once [repl] is compiled: every match, left to
    right and not overlapping, is replaced by [repl] applied to the matched
    text; the rest is copied. *)
Fixpoint sub_from (ps : list piece) (repl : str -> str) (s : str) (skip : nat) : str :=
  match s with
  | [] => []
  | c :: s' =>
      match skip with
      | S k => sub_from ps repl s' k
      | O =>
          match match_pieces ps s with
          | Some (n, _) => repl (take n s) ++ sub_from ps repl s' (pred n)
          | None => c :: sub_from ps repl s' O
          end
      end
  end.

Definition sub_with (ps : list piece) (repl : str -> str) (s : str) : str :=
  sub_from ps repl s O.

(** *** Replacement templates

    [re.sub] compiles a replacement string before it searches: a
    backslash starts an escape, and a bad escape raises [re.error] even
    when nothing matches.  None of the source's patterns has a numbered or
    named group, so the only group a template can name is group 0. *)
Inductive tpart : Type :=
  | TChar (c : N)
  | TGroup0.

Definition is_octal (c : N) : bool := (48 <=? c) && (c <=? 55).
Definition is_ascii_digit (c : N) : bool := (48 <=? c) && (c <=? 57).
Definition is_ascii_letter (c : N) : bool :=
  ((65 <=? c) && (c <=? 90)) || ((97 <=? c) && (c <=? 122)).

(** The escapes of [re]'s [ESCAPES] table. *)
Definition escape_char (c : N) : option N :=
  if c =? 97 then Some 7 else if c =? 98 then Some 8
  else if c =? 102 then Some 12 else if c =? 110 then Some 10
  else if c =? 114 then Some 13 else if c =? 116 then Some 9
  else if c =? 118 then Some 11 else if c =? 92 then Some 92
  else None.

(** [parse_template]: [fuel] bounds the number of tokens, and the length
    of the template is always enough. *)
Fixpoint parse_template_fuel (fuel : nat) (r : str) : option (list tpart) :=
  match fuel with
  | O => match r with [] => Some [] | _ => None end
  | S fuel' =>
      match r with
      | [] => Some []
      | 92 :: [] => None
      | 92 :: 103 :: r1 =>
          (* \g<name>: only a decimal name of value 0 names a group *)
          match r1 with
          | 60 :: r2 =>
              match find_first [62] r2 with
              | Some n =>
                  let name := take n r2 in
                  if negb (Nat.eqb n 0) && forallb (N.eqb 48) name
                  then cons TGroup0 <$> parse_template_fuel fuel' (drop (S n) r2)
                  else None
              | None => None
              end
          | _ => None
          end
      | 92 :: 48 :: r1 =>
          (* \0, \0o, \0oo: an octal escape *)
          match r1 with
          | o1 :: o2 :: r3 =>
              if is_octal o1 && is_octal o2
              then cons (TChar (((o1 - 48) * 8 + (o2 - 48)) mod 256))
                     <$> parse_template_fuel fuel' r3
              else if is_octal o1
              then cons (TChar (o1 - 48)) <$> parse_template_fuel fuel' (o2 :: r3)
              else cons (TChar 0) <$> parse_template_fuel fuel' r1
          | [o1] =>
              if is_octal o1 then Some [TChar (o1 - 48)]
              else cons (TChar 0) <$> parse_template_fuel fuel' r1
          | [] => Some [TChar 0]
          end
      | 92 :: c :: r1 =>
          if is_ascii_digit c then
            (* \ooo is an octal escape; any other \N is a reference to a
               group that does not exist *)
            match r1 with
            | o1 :: o2 :: r3 =>
                if is_octal c && is_octal o1 && is_octal o2 then
                  let v := (c - 48) * 64 + (o1 - 48) * 8 + (o2 - 48) in
                  if v <=? 255 then cons (TChar v) <$> parse_template_fuel fuel' r3
                  else None
                else None
            | _ => None
            end
          else
            match escape_char c with
            | Some e => cons (TChar e) <$> parse_template_fuel fuel' r1
            | None =>
                if is_ascii_letter c then None
                else (fun t => TChar 92 :: TChar c :: t) <$> parse_template_fuel fuel' r1
            end
      | c :: r1 => cons (TChar c) <$> parse_template_fuel fuel' r1
      end
  end.

Definition parse_template (r : str) : option (list tpart) :=
  parse_template_fuel (length r) r.

Definition expand (t : list tpart) (matched : str) : str :=
  flat_map (fun p => match p with TChar c => [c] | TGroup0 => matched end) t.

(** [re.sub(p, repl, s)] with a replacement string; [None] when the
    template raises. *)
Definition sub (ps : list piece) (repl : str) (s : str) : option str :=
  t ← parse_template repl; Some (sub_with ps (expand t) s).

(** *** Occurrences *)

(** The pattern matches at the head of [s]. *)
Definition matches (ps : list piece) (s : str) : bool :=
  bool_decide (is_Some (match_pieces ps s)).

(** The test [O] holds at no position of [s]. *)
Definition nowhere (O : str -> bool) (s : str) : Prop :=
  forall pre post, s = pre ++ post -> O post = false.

End Re.

(** ** [src/app.py]: the citation validator *)

Module Sources.
Import PyStr Re.

Definition H3_SOURCES : str := Eval vm_compute in lit "<h3>Источники</h3>".
Definition OL_OPEN : str := Eval vm_compute in lit "<ol>".
Definition OL_CLOSE : str := Eval vm_compute in lit "</ol>".
Definition CONF_HEAD : str := Eval vm_compute in lit "Точность ответа:<b> ".
Definition CONF_TAIL : str := Eval vm_compute in lit "/10</b>".

(** [r"<h3>Источники</h3>\s*<ol>(.*?)</ol>"] with [re.DOTALL]; the
    pattern of the final [re.sub] is the same without the group. *)
Definition sources_re : list piece :=
  [Lit H3_SOURCES; Class isspace 0; Lit OL_OPEN; LazyDot; Lit OL_CLOSE].

(** [r"<li>(.*?)</li>"] with [re.DOTALL]. *)
Definition li_re : list piece :=
  [Lit (lit "<li>"); LazyDot; Lit (lit "</li>")].

(** [r"<[^>]+>"]. *)
Definition tag_re : list piece :=
  [Lit [60]; Class (fun c => negb (c =? 62)) 1; Lit [62]].

(** [r"\[\d+\]"]. *)
Definition marker_re : list piece :=
  [Lit [91]; Class isdecimal 1; Lit [93]].

(** [r"Точность ответа:<b> \d+/10</b>"]. *)
Definition conf_re : list piece :=
  [Lit CONF_HEAD; Class isdecimal 1; Lit CONF_TAIL].

(** ["Точность ответа:<b> 0/10</b>"]. *)
Definition CONF_ZERO : str := Eval vm_compute in (CONF_HEAD ++ 48 :: CONF_TAIL).

(** [new_sources_section] of the two invalidating branches. *)
Definition NOT_FOUND : str :=
  Eval vm_compute in
    (H3_SOURCES ++ 10 :: lit "<p style=" ++ 34 :: lit "color: red;" ++ 34 ::
     lit ">Не найдено!</p>").

(** The test of the inner loop for one [path]. *)
Definition label_matches (clean_item path : str) : bool :=
  str_in path clean_item || str_in clean_item path
  || str_eqb clean_item (last_segment 47 path).

(** The inner [for path in actual_docs] loop: it breaks at the first path
    that matches the label and is a key of [links_dict]; a matching path
    without a link is passed over. *)
Fixpoint find_link (clean_item : str) (actual_docs : list str)
    (links_dict : gmap str str) : option str :=
  match actual_docs with
  | [] => None
  | path :: rest =>
      if label_matches clean_item path then
        match links_dict !! path with
        | Some link => Some link
        | None => find_link clean_item rest links_dict
        end
      else find_link clean_item rest links_dict
  end.

(** One round of the outer loop: the entry appended to [valid_sources]. *)
Definition check_item (actual_docs : list str) (links_dict : gmap str str)
    (item : str) : option (str * option str) :=
  clean_item ← strip <$> sub tag_re [] item;
  Some (item, find_link clean_item actual_docs links_dict).

(** One element of [new_list_items]. *)
Definition render_item (v : str * option str) : str :=
  match v with
  | (item, Some link) =>
      lit "<li><a href=" ++ 34 :: link ++ 34 :: lit " target=" ++ 34 ::
      lit "_blank" ++ 34 :: 62 :: item ++ lit "</a></li>"
  | (item, None) => lit "<li>" ++ item ++ lit "</li>"
  end.

(** The three substitutions of an invalidating branch. *)
Definition invalidate (response_text : str) : option str :=
  response_text ← sub marker_re [] response_text;
  response_text ← sub conf_re CONF_ZERO response_text;
  sub sources_re NOT_FOUND response_text.

(** [process_sources(response_text, actual_docs, links_dict)]; [None]
    when a [re.sub] raises on its replacement template. *)
Definition process_sources (response_text : str) (actual_docs : list str)
    (links_dict : gmap str str) : option str :=
  match search sources_re response_text with
  | None => invalidate response_text
  | Some sources_content =>
      let source_items := findall li_re sources_content in
      valid_sources ← mapM (check_item actual_docs links_dict) source_items;
      if negb (existsb (fun v => bool_decide (is_Some (snd v))) valid_sources)
      then invalidate response_text
      else
        let new_list_items := map render_item valid_sources in
        let new_sources_section :=
          H3_SOURCES ++ OL_OPEN ++ concat new_list_items ++ OL_CLOSE in
        sub sources_re new_sources_section response_text
  end.

(** *** What the validator is to guarantee *)

(** [r"\[\d*\["]: an opening bracket inside a bracket that is still open. *)
Definition nested_re : list piece :=
  [Lit [91]; Class isdecimal 0; Lit [91]].

(** [clean_item] of one list item. *)
Definition clean_label (item : str) : str :=
  strip (sub_with tag_re (fun _ => []) item).

(** The candidate citation labels of an answer: none when it has no
    Sources section. *)
Definition candidate_labels (response_text : str) : list str :=
  match search sources_re response_text with
  | Some sources_content => map clean_label (findall li_re sources_content)
  | None => []
  end.

(** No candidate label matches any of the actual document paths. *)
Definition no_label_matches (response_text : str) (actual_docs : list str) : Prop :=
  forall label path,
    label ∈ candidate_labels response_text -> path ∈ actual_docs ->
    label_matches label path = false.

(** No candidate label resolves to a link. *)
Definition no_label_linked (response_text : str) (actual_docs : list str)
    (links_dict : gmap str str) : Prop :=
  forall label,
    label ∈ candidate_labels response_text ->
    find_link label actual_docs links_dict = None.

(** A confidence marker that does not read 0/10 starts here. *)
Definition nonzero_conf (t : str) : bool :=
  match match_pieces conf_re t with
  | Some (n, _) => negb (str_eqb (take n t) CONF_ZERO)
  | None => false
  end.

(** Every confidence marker of [s] reads 0/10. *)
Definition confidence_reads_zero (s : str) : Prop := nowhere nonzero_conf s.

(** The characters that cannot stand in a confidence marker after its
    first one. *)
Definition conf_poison (p : N) : Prop :=
  (p ∉ tail CONF_HEAD) /\ isdecimal p = false /\ (p ∉ CONF_TAIL).

(** The part of the Sources pattern before its lazy group, heading,
    whitespace and [<ol>]: the length it takes at the head of [s]. *)
Definition sources_head (s : str) : option nat :=
  if starts_with H3_SOURCES s then
    let r := drop (length H3_SOURCES) s in
    let k := span isspace r in
    if starts_with OL_OPEN (drop k r)
    then Some (length H3_SOURCES + (k + length OL_OPEN))%nat
    else None
  else None.

(** *** Worked inputs *)

Definition SOURCES_EXAMPLE : str :=
  Eval vm_compute in lit "<h3>Источники</h3><ol><li>1.docx</li><li>2.pdf</li></ol>".

Definition CONF_SEVEN : str :=
  Eval vm_compute in lit "<p><i>Точность ответа:<b> 7/10</b></i></p>".

(** The Sources list of the specification's example, in a body with two
    citation markers and a confidence marker. *)
Definition answer_example : str :=
  Eval vm_compute in
    (lit "<p>Первое действие [1], второе действие [2]</p>"
     ++ SOURCES_EXAMPLE ++ CONF_SEVEN).

(** The same answer after the invalidating branch. *)
Definition answer_example_invalidated : str :=
  Eval vm_compute in
    (lit "<p>Первое действие , второе действие </p>" ++ NOT_FOUND
     ++ lit "<p><i>Точность ответа:<b> 0/10</b></i></p>").

Definition DOC_PATH : str := Eval vm_compute in lit "folder/1.docx".
Definition DOC_LINK : str := Eval vm_compute in lit "https://docs.example/1".

(** The same answer with its first item linked. *)
Definition answer_example_linked : str :=
  Eval vm_compute in
    (lit "<p>Первое действие [1], второе действие [2]</p><h3>Источники</h3><ol>"
     ++ render_item (lit "1.docx", Some DOC_LINK)
     ++ lit "<li>2.pdf</li></ol>" ++ CONF_SEVEN).

Definition OTHER_PATH : str := Eval vm_compute in lit "folder/3.docx".

(** An answer whose first marker is nested in another bracket. *)
Definition answer_nested : str :=
  Eval vm_compute in
    (lit "<p>Первое действие [[1]2]</p>" ++ SOURCES_EXAMPLE ++ CONF_SEVEN).

End Sources.

(** ** [src/letters_templates_v2.py]: the template registry and matcher *)

Module Templates.
Import PyStr Re.

(** One entry of the [templates] array of the configuration.  [patterns]
    and [alternative_patterns] are read with [get(..., [])], so a missing
    key is the empty list; [priority] is read with [get('priority', 0)]
    and keeps its absence. *)
Record template : Type := {
  t_id : str;
  t_name : str;
  t_description : str;
  t_patterns : list str;
  t_alternative_patterns : list (list str);
  t_action : str;
  t_msg_file : str;
  t_priority : option Z;
  t_comment : str
}.

(** [template.get('priority', 0)]. *)
Definition priority_of (t : template) : Z := default 0%Z (t_priority t).

(** [r'\s+']. *)
Definition ws_re : list piece := [Class isspace 1].

(** [_normalize_text]. *)
Definition normalize_text (text : str) : str :=
  let text := replace_char 8230 [46; 46; 46] text in
  let text := sub_with ws_re (fun _ => [32]) text in
  let text := replace_char 44 [] text in
  strip text.

(** Whitespace is normal in [s]: every whitespace character is a space
    and no two stand side by side. *)
Fixpoint ws_normal (s : str) : bool :=
  match s with
  | [] => true
  | c :: s' =>
      (if isspace c
       then (c =? 32) && match s' with x :: _ => negb (isspace x) | [] => true end
       else true)
      && ws_normal s'
  end.

(** The dict [find_matching_template] returns. *)
Record match_result : Type := {
  r_id : str;
  r_description : str;
  r_action : str;
  r_msg_file : str;
  r_msg_filename : str;
  r_priority : Z;
  r_score : Q;
  r_comment : str
}.

(** [score > best_score]. *)
Definition Qgtb (x y : Q) : bool := negb (Qle_bool x y).

Section Matcher.

(** [str.lower]: Unicode case mapping, a table of the Python runtime. *)
Variable lower : str -> str.

(** [main_match_count] after the loop over [patterns]. *)
Definition main_match_count (normalized_query : str) (patterns : list str) : nat :=
  length (filter (fun pattern => str_in (lower pattern) normalized_query) patterns).

(** [alt_match] after the loop over [alternative_patterns]. *)
Definition alt_match (normalized_query : str) (alternative_patterns : list (list str)) : bool :=
  existsb (forallb (fun alt => str_in (lower alt) normalized_query)) alternative_patterns.

(** [match_ratio], as an exact fraction. *)
Definition match_ratio (normalized_query : str) (t : template) : Q :=
  let main_patterns_count := length (t_patterns t) in
  if (0 <? main_patterns_count)%nat
  then Z.of_nat (main_match_count normalized_query (t_patterns t))
       # Pos.of_nat main_patterns_count
  else 0%Q.

Definition is_match (normalized_query : str) (t : template) : bool :=
  Nat.eqb (main_match_count normalized_query (t_patterns t)) (length (t_patterns t))
  || alt_match normalized_query (t_alternative_patterns t).

Definition score (normalized_query : str) (t : template) : Q :=
  (match_ratio normalized_query t * 100 + inject_Z (priority_of t))%Q.

(** The loop over [self.templates].  [best_match] is a reference to an
    element of the list: it is kept with its position. *)
Fixpoint best_loop (normalized_query : str) (templates : list template) (i : nat)
    (best_match : option (nat * template)) (best_score : Q)
    : option (nat * template) * Q :=
  match templates with
  | [] => (best_match, best_score)
  | t :: rest =>
      if is_match normalized_query t then
        if Qgtb (score normalized_query t) best_score
        then best_loop normalized_query rest (S i) (Some (i, t)) (score normalized_query t)
        else best_loop normalized_query rest (S i) best_match best_score
      else best_loop normalized_query rest (S i) best_match best_score
  end.

(** The state of the loop at its end, for a query and a context. *)
Definition find_best (templates : list template) (query error_message : str)
    : option (nat * template) * Q :=
  let normalized_query := lower (normalize_text query) in
  let normalized_context :=
    match error_message with
    | [] => []
    | _ => lower (normalize_text error_message)
    end in
  best_loop normalized_query templates O None 0%Q.

(** [find_matching_template(query, error_message)]. *)
Definition find_matching_template (templates : list template)
    (query error_message : str) : option match_result :=
  match find_best templates query error_message with
  | (Some (_, best_match), best_score) =>
      Some {| r_id := t_id best_match;
              r_description := t_description best_match;
              r_action := t_action best_match;
              r_msg_file := t_msg_file best_match;
              r_msg_filename := t_msg_file best_match;
              r_priority := priority_of best_match;
              r_score := best_score;
              r_comment := t_comment best_match |}
  | (None, _) => None
  end.

End Matcher.

(** [str.lower] on text over ASCII and the basic Cyrillic block, for the
    worked examples. *)
Definition lower_basic (s : str) : str :=
  map (fun c =>
         if (65 <=? c) && (c <=? 90) then c + 32
         else if (1040 <=? c) && (c <=? 1071) then c + 32
         else if (1024 <=? c) && (c <=? 1039) then c + 80
         else c) s.

(** *** The registry *)

(** [self.templates.sort(key=lambda x: x.get('priority', 0), reverse=True)]:
    a stable sort, highest priority first. *)
Fixpoint insert_by_priority (t : template) (l : list template) : list template :=
  match l with
  | [] => [t]
  | u :: l' =>
      if (priority_of t <? priority_of u)%Z then u :: insert_by_priority t l'
      else t :: l
  end.

Definition sort_by_priority (l : list template) : list template :=
  foldr insert_by_priority [] l.

(** An entry of [actions]. *)
Record action_def : Type := {
  display_name : option str;
  notify_csa : option bool
}.

(** The decoded configuration file: its three top-level keys, each read
    with a default. *)
Record config_data : Type := {
  d_templates : option (list template);
  d_actions : option (gmap str action_def);
  d_config : option (gmap str str)
}.

(** The fields of a [LetterTemplateManagerV2]. *)
Record manager : Type := {
  config_path : str;
  templates : list template;
  actions : gmap str action_def;
  config : gmap str str;
  msg_folder : str
}.

(** [_load_config]: the file is [None] when it is missing or is not JSON,
    and then the call raises before it assigns anything. *)
Definition load_config (self : manager) (file : option config_data) : option manager :=
  data ← file;
  let config := default ∅ (d_config data) in
  Some {| config_path := config_path self;
          templates := sort_by_priority (default [] (d_templates data));
          actions := default ∅ (d_actions data);
          config := config;
          msg_folder := default (lit "templates/errors") (config !! lit "msg_folder") |}.

(** [__init__]. *)
Definition init (path : str) (file : option config_data) : option manager :=
  load_config {| config_path := path; templates := []; actions := ∅;
                 config := ∅; msg_folder := [] |} file.

(** [reload_config]. *)
Definition reload_config (self : manager) (file : option config_data) : option manager :=
  load_config self file.

(** [_save_config]: what is written when the disk takes it. *)
Definition saved_data (self : manager) : config_data :=
  {| d_templates := Some (templates self);
     d_actions := Some (actions self);
     d_config := Some (config self) |}.

(** [add_template]: the manager and the file after the call, and the
    value returned.  [disk_ok] tells whether [_save_config] can write. *)
Definition add_template (self : manager) (file : option config_data) (disk_ok : bool)
    (template_id name description : str) (patterns : list str)
    (action msg_file : str) (priority : Z) (comment : str)
    : manager * option config_data * bool :=
  if existsb (fun t => str_eqb (t_id t) template_id) (templates self)
  then (self, file, false)
  else
    let new_template :=
      {| t_id := template_id; t_name := name; t_description := description;
         t_patterns := patterns; t_alternative_patterns := [];
         t_action := action; t_msg_file := msg_file;
         t_priority := Some priority; t_comment := comment |} in
    let self' :=
      {| config_path := config_path self;
         templates := sort_by_priority (templates self ++ [new_template]);
         actions := actions self; config := config self;
         msg_folder := msg_folder self |} in
    if disk_ok then (self', Some (saved_data self'), true)
    else (self', file, false).

(** *** The registry invariant *)

(** [a] may stand before [b] in the registry. *)
Definition priority_ge (a b : template) : Prop := (priority_of b <= priority_of a)%Z.

(** The list is sorted, highest priority first. *)
Definition sorted_desc (l : list template) : Prop := StronglySorted priority_ge l.

(** The managers a process can hold: built by [__init__], then changed by
    [reload_config] and [add_template] only. *)
Inductive reachable : manager -> Prop :=
  | reach_init path file m :
      init path file = Some m -> reachable m
  | reach_reload m file m' :
      reachable m -> reload_config m file = Some m' -> reachable m'
  | reach_add m file disk_ok template_id name description patterns action
      msg_file priority comment :
      reachable m ->
      reachable (add_template m file disk_ok template_id name description
                   patterns action msg_file priority comment).1.1.

(** *** Worked inputs *)

Definition mk_template (id : str) (patterns : list str)
    (alternative_patterns : list (list str)) (priority : option Z) : template :=
  {| t_id := id; t_name := id; t_description := id;
     t_patterns := patterns; t_alternative_patterns := alternative_patterns;
     t_action := lit "block_and_notify"; t_msg_file := lit "letter.msg";
     t_priority := priority; t_comment := [] |}.

(** A template without patterns and without alternative groups, as
    [add_template] builds it from an empty pattern list and its default
    priority. *)
Definition bare_template : template :=
  mk_template (lit "bare") [] [] (Some 10%Z).

(** A template that only its alternative group can match, with no
    priority of its own. *)
Definition alt_only_template : template :=
  mk_template (lit "alt") [lit "duplicate po"; lit "ruedigiper"]
    [[lit "gln"]] None.

(** The template of the specification's example. *)
Definition duplicate_po_template : template :=
  mk_template (lit "dup") [lit "duplicate po"; lit "ruedigiper"] [] (Some 50%Z).

Definition duplicate_po_twin : template :=
  mk_template (lit "dup2") [lit "duplicate po"; lit "ruedigiper"] [] (Some 50%Z).

Definition query_duplicate_po : str :=
  Eval vm_compute in lit "Ошибка Duplicate PO (RUEDIGIPER)".

Definition query_gln : str :=
  Eval vm_compute in lit "Проверить GLN клиента в XD03".


(** A configuration file with two templates, the lower priority first. *)
Definition two_template_file : config_data :=
  {| d_templates := Some [bare_template; duplicate_po_template];
     d_actions := None; d_config := None |}.

End Templates.

(** ** [src/app.py]: the error boundary of [/api/messages] *)

Module Messages.
Import PyStr.

(** The value [request.get_json()] returns. *)
Inductive json : Type :=
  | JNull
  | JBool (b : bool)
  | JNum (q : Q)
  | JStr (s : str)
  | JArr (l : list json)
  | JObj (d : list (str * json)).

(** The exceptions the handler can meet, by the [except] clause that
    takes them. *)
Inductive exn : Type :=
  | KeyError
  | TypeError
  | DatabaseError
  | RequestException
  | OtherException.

Inductive payload : Type :=
  | ErrorPayload (error : str)
  | MessagePayload (text : str) (mailto : option json).

(** What the view function does: it returns a response with a status, or
    an exception leaves it. *)
Inductive outcome : Type :=
  | Response (status : nat) (body : payload)
  | Uncaught (e : exn).

(** What the body of the [try] block does. *)
Inductive body_result : Type :=
  | Returns (body : payload)
  | Raises (e : exn).

(** [not data]. *)
Definition falsy (data : json) : bool :=
  match data with
  | JNull => true
  | JBool b => negb b
  | JNum q => Qeq_bool q 0
  | JStr s => match s with [] => true | _ => false end
  | JArr l => match l with [] => true | _ => false end
  | JObj d => match d with [] => true | _ => false end
  end.

(** Lookup in a dict. *)
Fixpoint dict_lookup (key : str) (d : list (str * json)) : option json :=
  match d with
  | [] => None
  | (k, v) :: d' => if str_eqb k key then Some v else dict_lookup key d'
  end.

Definition is_jstr (key : str) (v : json) : bool :=
  match v with
  | JStr s => str_eqb s key
  | _ => false
  end.

(** [key in data], for a string [key]. *)
Definition contains (key : str) (data : json) : exn + bool :=
  match data with
  | JObj d => inr (bool_decide (is_Some (dict_lookup key d)))
  | JArr l => inr (existsb (is_jstr key) l)
  | JStr s => inr (str_in key s)
  | _ => inl TypeError
  end.

(** [data[key]], for a string [key]. *)
Definition getitem (key : str) (data : json) : exn + json :=
  match data with
  | JObj d =>
      match dict_lookup key d with
      | Some v => inr v
      | None => inl KeyError
      end
  | _ => inl TypeError
  end.

Section Handler.

(** The insert into [messages] and its commit: [None] when they pass. *)
Variable db_insert : json -> option exn.

(** The body of the [try] block: retrieval, template or generation, and
    [process_sources], on [user_message], [selected_datasets] and [mode]. *)
Variable try_body : json -> json -> json -> body_result.

Definition TEXT : str := Eval vm_compute in lit "text".
Definition DATASETS : str := Eval vm_compute in lit "datasets".
Definition MODE : str := Eval vm_compute in lit "mode".

Definition invalid_input : outcome :=
  Response 400 (ErrorPayload (lit "Invalid input")).

(** [messages()], from the decoded request body on. *)
Definition messages (data : json) : outcome :=
  if falsy data then invalid_input
  else
    match contains TEXT data with
    | inl e => Uncaught e
    | inr false => invalid_input
    | inr true =>
        match getitem TEXT data with
        | inl e => Uncaught e
        | inr user_message =>
            match db_insert user_message with
            | Some e => Uncaught e
            | None =>
                let selected_datasets :=
                  match getitem DATASETS data with
                  | inr v => v
                  | inl _ => JArr []
                  end in
                match getitem MODE data with
                | inl e => Uncaught e
                | inr mode =>
                    match try_body user_message selected_datasets mode with
                    | Returns body => Response 200 body
                    | Raises RequestException =>
                        Response 503 (ErrorPayload (lit "Model service unavailable"))
                    | Raises _ =>
                        Response 500 (ErrorPayload (lit "Internal server error"))
                    end
                end
            end
        end
    end.

End Handler.

End Messages.

(** ** [src/letters_templates_v2.py]: lookup and letter assembly *)

Module Letters.
Import PyStr Templates.

(** [list_templates]. *)
Definition list_templates (self : manager) : list template := templates self.

(** The loop of [get_template_by_id]. *)
Fixpoint first_with_id (templates : list template) (template_id : str) : option template :=
  match templates with
  | [] => None
  | template :: rest =>
      if str_eqb (t_id template) template_id then Some template
      else first_with_id rest template_id
  end.

(** [get_template_by_id]. *)
Definition get_template_by_id (self : manager) (template_id : str) : option template :=
  first_with_id (templates self) template_id.

(** The ids of the registry. *)
Definition ids (self : manager) : list str := map t_id (templates self).

(** The fields [extract_msg] reads from a letter; a field can be absent. *)
Record msg_content : Type := {
  msg_subject : option str;
  msg_body : option str;
  msg_to : option str;
  msg_cc : option str
}.

(** The dict [prepare_letter_response] returns. *)
Record letter_response : Type := {
  l_to : str;
  l_cc : str;
  l_subject : str;
  l_response : str;
  l_action : str;
  l_action_text : str;
  l_notify_csa : bool;
  l_template_id : str;
  l_template_description : str
}.

(** [x or d] for a field that is a string or [None]. *)
Definition or_default (x : option str) (d : str) : str :=
  match x with
  | Some (c :: s) => c :: s
  | _ => d
  end.

(** [s.endswith("/")]. *)
Definition ends_with_slash (s : str) : bool :=
  match rev s with
  | 47 :: _ => true
  | _ => false
  end.

(** [os.path.join(a, b)] (POSIX). *)
Definition path_join (a b : str) : str :=
  match b with
  | 47 :: _ => b
  | _ =>
      match a with
      | [] => b
      | _ => if ends_with_slash a then a ++ b else a ++ 47 :: b
      end
  end.

Definition FALLBACK_TO : str := Eval vm_compute in lit "Customer.Service@nestle.ru".

Section Letter.

(** [os.path.exists]. *)
Variable path_exists : str -> bool.

(** [extract_msg.Message(path)] and the reading of its fields: [None]
    when it raises. *)
Variable read_msg : str -> option msg_content.

(** [prepare_letter_response(template_config)], on the dict that
    [find_matching_template] returns. *)
Definition prepare_letter_response (self : manager) (template_config : match_result)
    : option letter_response :=
  let msg_filename := r_msg_file template_config in
  match msg_filename with
  | [] => None
  | _ =>
      let msg_path := path_join (msg_folder self) msg_filename in
      if path_exists msg_path then
        match read_msg msg_path with
        | Some msg =>
            let action := r_action template_config in
            let action_info := actions self !! action in
            Some {| l_to := or_default (msg_to msg) FALLBACK_TO;
                    l_cc := or_default (msg_cc msg) [];
                    l_subject := or_default (msg_subject msg) [];
                    l_response := or_default (msg_body msg) [];
                    l_action := action;
                    l_action_text := default [] (action_info ≫= display_name);
                    l_notify_csa := default true (action_info ≫= notify_csa);
                    l_template_id := r_id template_config;
                    l_template_description := r_description template_config |}
        | None => None
        end
      else None
  end.

End Letter.

(** *** Worked inputs *)

Definition letter_msg : msg_content :=
  {| msg_subject := Some (lit "Duplicate PO"); msg_body := Some (lit "Добрый день.");
     msg_to := None; msg_cc := Some [] |}.

Definition example_actions : gmap str action_def :=
  {[ lit "block_and_notify" :=
       {| display_name := Some (lit "Блокировать IDoc"); notify_csa := Some false |} ]}.

End Letters.

(** ** [src/app.py]: the templated answer of letter mode *)

Module LetterMode.
Import PyStr Re Sources Templates Letters Messages.

(** [action_info] for the four actions the handler knows. *)
Definition action_info (action : str) : str :=
  if str_eqb action (lit "block_and_notify") then
    lit "<p><strong>⚠️ ДЕЙСТВИЕ:</strong> Блокировать IDoc и оповестить CSA</p>"
  else if str_eqb action (lit "block_no_notify") then
    lit "<p><strong>⚠️ ДЕЙСТВИЕ:</strong> Блокировать IDoc БЕЗ оповещения CSA</p>"
  else if str_eqb action (lit "push_and_notify") then
    lit "<p><strong>✅ ДЕЙСТВИЕ:</strong> Протолкнуть IDoc и оповестить</p>"
  else if str_eqb action (lit "lenta_gln_change") then
    lit "<p><strong>🏪 ДЕЙСТВИЕ:</strong> Замена GLN для Ленты</p>"
  else [].

Definition TEMPLATED_HEAD : str :=
  Eval vm_compute in
    (lit "<h3>Решение найдено</h3>" ++ 10 ::
     lit "        <p><strong>Используется шаблон:</strong> ").

Definition TEMPLATED_MID : str :=
  Eval vm_compute in (lit "</p>" ++ 10 :: lit "        ").

Definition TEMPLATED_TAIL : str :=
  Eval vm_compute in
    (10 :: lit "        <hr>" ++ 10 :: lit "        <h4>Инструкция:</h4>" ++ 10 ::
     lit "        <div style=" ++ 34 :: lit "white-space: pre-wrap;" ++ 34 :: [62]).

(** [response_text] of the templated answer.  [action_text] is read from
    [template_config] with [get('action_text', '')], and the dict that
    [find_matching_template] returns has no such key. *)
Definition templated_text (template_config : match_result) : str :=
  let action := r_action template_config in
  let action_text : str := [] in
  TEMPLATED_HEAD ++ r_description template_config ++ TEMPLATED_MID
  ++ action_info action ++ TEMPLATED_TAIL ++ action_text ++ lit "</div>".

(** [mailto_data]. *)
Definition mailto_data (response_data : letter_response) : json :=
  JObj [ (lit "to", JStr (l_to response_data));
         (lit "cc", JStr (l_cc response_data));
         (lit "subject", JStr (l_subject response_data));
         (lit "body", JStr (l_response response_data)) ].

Section Branch.

Variable lower : str -> str.
Variable path_exists : str -> bool.
Variable read_msg : str -> option msg_content.

(** The first part of letter mode: [None] when the handler goes on to
    generation, otherwise what the handler returns with the templated
    answer, or the exception that [process_sources] raises. *)
Definition templated_answer (self : manager) (user_message context : str)
    (actual_docs : list str) (links_dict : gmap str str) : option body_result :=
  match find_matching_template lower (templates self) user_message context with
  | Some template_config =>
      match prepare_letter_response path_exists read_msg self template_config with
      | Some response_data =>
          Some match process_sources (templated_text template_config)
                       actual_docs links_dict with
               | Some processed_response =>
                   Returns (MessagePayload processed_response
                              (Some (mailto_data response_data)))
               | None => Raises OtherException
               end
      | None => None
      end
  | None => None
  end.

End Branch.

(** *** Worked inputs *)

Definition example_manager : manager :=
  {| config_path := lit "templates/error_templates_config.json";
     templates := [duplicate_po_template];
     actions := example_actions; config := ∅;
     msg_folder := lit "templates/errors" |}.

End LetterMode.

(** * Properties of strings and of the scanning engine *)

Module StrFacts.
Import PyStr.

(** Membership in a list that is written out, and false. *)
Ltac elem_of_literal H :=
  repeat (apply elem_of_cons in H as [H|H]; [discriminate H|]); inversion H.

Lemma starts_with_spec (p s : str) :
  starts_with p s = true <-> exists t, s = p ++ t.
Proof.
  revert s. induction p as [|x p IH]; intros s; simpl.
  - split; [eauto|reflexivity].
  - destruct s as [|y s].
    + split; [discriminate|]. intros [t Ht]. discriminate.
    + rewrite andb_true_iff, N.eqb_eq, IH. split.
      * intros [-> [t ->]]. eauto.
      * intros [t Ht]. injection Ht as -> ->. eauto.
Qed.

Lemma starts_with_app (p t : str) : starts_with p (p ++ t) = true.
Proof. apply starts_with_spec. eauto. Qed.

Lemma starts_with_cons_ne (x c : N) (p s : str) :
  c <> x -> starts_with (x :: p) (c :: s) = false.
Proof.
  intros Hne. simpl. destruct (N.eqb_spec x c); [congruence|reflexivity].
Qed.

Lemma span_le (f : N -> bool) (s : str) : (span f s <= length s)%nat.
Proof. induction s as [|c s IH]; simpl; [lia|]. destruct (f c); simpl; lia. Qed.

Lemma span_app_all (f : N -> bool) (d t : str) :
  forallb f d = true -> span f (d ++ t) = (length d + span f t)%nat.
Proof.
  induction d as [|c d IH]; simpl; [reflexivity|].
  rewrite andb_true_iff. intros [-> Hd]. rewrite IH by assumption. reflexivity.
Qed.

Lemma span_take (f : N -> bool) (s : str) : forallb f (take (span f s) s) = true.
Proof.
  induction s as [|c s IH]; simpl; [reflexivity|].
  destruct (f c) eqn:E; simpl; [|reflexivity]. rewrite E, IH. reflexivity.
Qed.

Lemma span_drop_head (f : N -> bool) (s : str) :
  drop (span f s) s = [] \/ exists c r, drop (span f s) s = c :: r /\ f c = false.
Proof.
  induction s as [|c s IH]; simpl; [left; reflexivity|].
  destruct (f c) eqn:E; simpl; [exact IH|]. right. eauto.
Qed.

Lemma span_head_false (f : N -> bool) (c : N) (s : str) :
  f c = false -> span f (c :: s) = O.
Proof. intros H. simpl. rewrite H. reflexivity. Qed.

(** Before the end of the run every character is in the class. *)
Lemma drop_before_span (f : N -> bool) (s : str) (k : nat) :
  (k < span f s)%nat -> exists c r, drop k s = c :: r /\ f c = true.
Proof.
  revert k. induction s as [|c s IH]; intros k; simpl; [lia|].
  destruct (f c) eqn:E; [|lia].
  destruct k as [|k]; simpl.
  - eauto.
  - intros H. apply IH. lia.
Qed.

Lemma str_in_spec (p s : str) :
  str_in p s = true <-> exists a b, s = a ++ p ++ b.
Proof.
  induction s as [|c s IH]; simpl.
  - rewrite orb_false_r, starts_with_spec. split.
    + intros [t Ht]. exists [], t. exact Ht.
    + intros (a & b & H). destruct a; [eauto|discriminate].
  - rewrite orb_true_iff, starts_with_spec, IH. split.
    + intros [[t Ht]|(a & b & ->)].
      * exists [], t. exact Ht.
      * exists (c :: a), b. reflexivity.
    + intros (a & b & H). destruct a as [|x a].
      * left. eauto.
      * right. injection H as _ ->. eauto.
Qed.

Lemma replace_char_absent (c : N) (r s : str) :
  c ∉ s -> replace_char c r s = s.
Proof.
  unfold replace_char. induction s as [|x s IH]; intros H; simpl; [reflexivity|].
  apply not_elem_of_cons in H as [Hx Hs].
  destruct (N.eqb_spec x c); [congruence|]. simpl. rewrite IH by assumption. reflexivity.
Qed.

Lemma replace_char_elem (c x : N) (r s : str) :
  x ∈ replace_char c r s -> x ∈ r \/ (x ∈ s /\ x <> c).
Proof.
  unfold replace_char. induction s as [|y s IH]; simpl.
  - intros H. inversion H.
  - rewrite elem_of_app. intros [H|H].
    + destruct (N.eqb_spec y c).
      * left. exact H.
      * apply list_elem_of_singleton in H. subst x. right. split; [left|assumption].
    + destruct (IH H) as [?|[? ?]]; [left; assumption|right; split; [right|]; assumption].
Qed.

(** *** [strip] *)

Lemma lstrip_suffix (s : str) : exists k, lstrip s = drop k s.
Proof. eexists. reflexivity. Qed.

Lemma rstrip_prefix (s : str) : exists k, rstrip s = take k s.
Proof.
  unfold rstrip, lstrip. exists (length s - span isspace (rev s))%nat.
  rewrite skipn_rev, rev_involutive. reflexivity.
Qed.

Lemma lstrip_fixed (s : str) :
  (forall c r, s = c :: r -> isspace c = false) -> lstrip s = s.
Proof.
  intros H. unfold lstrip. destruct s as [|c r]; [reflexivity|].
  rewrite span_head_false by (eapply H; reflexivity). reflexivity.
Qed.

Lemma lstrip_head (s : str) (c : N) (r : str) :
  lstrip s = c :: r -> isspace c = false.
Proof.
  unfold lstrip. intros H.
  destruct (span_drop_head isspace s) as [E|(c' & r' & E & Hc)]; rewrite E in H.
  - discriminate.
  - injection H as <- _. exact Hc.
Qed.

End StrFacts.

Module ReFacts.
Import PyStr Re StrFacts.

(** *** The scanning engine *)

Lemma sub_from_skip (ps : list piece) (repl : str -> str) (s : str) (k : nat) :
  sub_from ps repl s k = sub_from ps repl (drop k s) O.
Proof.
  revert k. induction s as [|c s IH]; intros k.
  - destruct k; reflexivity.
  - destruct k as [|k]; [reflexivity|]. simpl. apply IH.
Qed.

Lemma sub_with_nil (ps : list piece) (repl : str -> str) : sub_with ps repl [] = [].
Proof. reflexivity. Qed.

Lemma sub_with_none (ps : list piece) (repl : str -> str) (c : N) (s : str) :
  match_pieces ps (c :: s) = None ->
  sub_with ps repl (c :: s) = c :: sub_with ps repl s.
Proof. unfold sub_with. simpl. intros ->. reflexivity. Qed.

Lemma sub_with_some (ps : list piece) (repl : str -> str) (c : N) (s : str)
    (n : nat) (g : str) :
  match_pieces ps (c :: s) = Some (n, g) ->
  sub_with ps repl (c :: s)
  = repl (take n (c :: s)) ++ sub_with ps repl (drop (pred n) s).
Proof.
  unfold sub_with. simpl. intros ->. rewrite sub_from_skip. reflexivity.
Qed.

(** Induction along the scan of [re.sub]. *)
Lemma sub_with_ind (ps : list piece) (repl : str -> str) (P : str -> str -> Prop) :
  P [] [] ->
  (forall c s, match_pieces ps (c :: s) = None ->
               P s (sub_with ps repl s) -> P (c :: s) (c :: sub_with ps repl s)) ->
  (forall c s n g, match_pieces ps (c :: s) = Some (n, g) ->
               P (drop (pred n) s) (sub_with ps repl (drop (pred n) s)) ->
               P (c :: s) (repl (take n (c :: s)) ++ sub_with ps repl (drop (pred n) s))) ->
  forall s, P s (sub_with ps repl s).
Proof.
  intros Hnil Hnone Hsome s.
  remember (length s) as m eqn:Hm. revert s Hm.
  induction m as [m IH] using lt_wf_ind. intros s Hm.
  destruct s as [|c s]; [exact Hnil|].
  destruct (match_pieces ps (c :: s)) as [[n g]|] eqn:E.
  - rewrite (sub_with_some _ _ _ _ _ _ E). apply (Hsome _ _ _ _ E).
    apply (IH (length (drop (pred n) s))); [|reflexivity].
    subst m. rewrite length_drop. simpl. lia.
  - rewrite (sub_with_none _ _ _ _ E). apply (Hnone _ _ E).
    apply (IH (length s)); [subst m; simpl; lia|reflexivity].
Qed.

Lemma sub_with_ext (ps : list piece) (repl1 repl2 : str -> str) (s : str) :
  (forall m, repl1 m = repl2 m) -> sub_with ps repl1 s = sub_with ps repl2 s.
Proof.
  intros Hext. unfold sub_with. generalize O.
  induction s as [|c s IH]; intros k; simpl; [reflexivity|].
  destruct k; [|apply IH].
  destruct (match_pieces ps (c :: s)) as [[n g]|]; rewrite IH; [rewrite Hext|]; reflexivity.
Qed.

(** *** The matcher *)

Lemma try_greedy_unfold (cont : str -> option (nat * str)) (s : str) (lo k : nat) :
  try_greedy cont s lo k
  = match cont (drop k s) with
    | Some (n, g) => Some ((k + n)%nat, g)
    | None =>
        match k with
        | O => None
        | S k' => if (lo <=? k')%nat then try_greedy cont s lo k' else None
        end
    end.
Proof. destruct k; reflexivity. Qed.

(** When the rest of the pattern fails at every shorter run, a greedy
    class keeps its whole run. *)
Lemma try_greedy_full (cont : str -> option (nat * str)) (s : str) (lo k : nat) :
  (forall k', (k' < k)%nat -> cont (drop k' s) = None) ->
  try_greedy cont s lo k
  = match cont (drop k s) with
    | Some (n, g) => Some ((k + n)%nat, g)
    | None => None
    end.
Proof.
  intros Hno. rewrite try_greedy_unfold.
  destruct (cont (drop k s)) as [[n g]|]; [reflexivity|].
  assert (Hall : forall j, (j < k)%nat -> try_greedy cont s lo j = None).
  { induction j as [|j IHj]; intros Hj; rewrite try_greedy_unfold, (Hno _ Hj).
    - reflexivity.
    - destruct (lo <=? j)%nat; [apply IHj; lia|reflexivity]. }
  destruct k as [|k]; [reflexivity|].
  destruct (lo <=? k)%nat; [apply Hall; lia|reflexivity].
Qed.

(** A class followed by a literal that starts outside the class. *)
Lemma match_class_lit (f : N -> bool) (lo : nat) (x : N) (p : str)
    (ps : list piece) (s : str) :
  f x = false ->
  match_pieces (Class f lo :: Lit (x :: p) :: ps) s
  = if (lo <=? span f s)%nat then
      match match_pieces (Lit (x :: p) :: ps) (drop (span f s) s) with
      | Some (n, g) => Some ((span f s + n)%nat, g)
      | None => None
      end
    else None.
Proof.
  intros Hx. cbn [match_pieces]. cbv zeta.
  destruct (lo <=? span f s)%nat; [|reflexivity].
  apply try_greedy_full. intros k' Hk'.
  destruct (drop_before_span f s k' Hk') as (c & r & -> & Hc).
  cbn [match_pieces]. rewrite starts_with_cons_ne; [reflexivity|congruence].
Qed.

(** A class at the end of the pattern. *)
Lemma match_class_end (f : N -> bool) (lo : nat) (s : str) :
  match_pieces [Class f lo] s
  = if (lo <=? span f s)%nat then Some ((span f s + 0)%nat, []) else None.
Proof.
  cbn [match_pieces]. cbv zeta.
  destruct (lo <=? span f s)%nat; [|reflexivity].
  rewrite try_greedy_unfold. reflexivity.
Qed.

(** A lazy group followed by a literal at the end of the pattern stops
    at the first occurrence of the literal. *)
Lemma try_lazy_lit (p : str) (s : str) :
  try_lazy (match_pieces [Lit p]) s
  = match find_first p s with
    | Some i => Some ((i + (length p + 0))%nat, take i s)
    | None => None
    end.
Proof.
  induction s as [|c s IH]; cbn [try_lazy match_pieces find_first].
  - destruct (starts_with p []); reflexivity.
  - destruct (starts_with p (c :: s)); [reflexivity|].
    cbn [match_pieces] in IH. rewrite IH.
    destruct (find_first p s) as [i|]; reflexivity.
Qed.

(** *** Replacement templates *)

(** A template names the whole match with [\g<0>], [\n] is a newline,
    and a backslash before a letter that is no escape, or a reference to
    a group, raises. *)
Example parse_template_examples :
  parse_template (lit "a\g<0>b") = Some [TChar 97; TGroup0; TChar 98] /\
  parse_template (lit "\n") = Some [TChar 10] /\
  parse_template (lit "\.") = Some [TChar 92; TChar 46] /\
  parse_template (lit "\123") = Some [TChar 83] /\
  parse_template (lit "\d") = None /\
  parse_template (lit "\1") = None /\
  parse_template (lit "\g<1>") = None /\
  parse_template (lit "x\") = None.
Proof. repeat split. Qed.

(** *** Literal templates *)

Lemma expand_literal (r matched : str) : expand (map TChar r) matched = r.
Proof.
  unfold expand. induction r as [|c r IH]; simpl; [reflexivity|]. rewrite IH. reflexivity.
Qed.

Lemma sub_literal (ps : list piece) (r s : str) :
  parse_template r = Some (map TChar r) ->
  sub ps r s = Some (sub_with ps (fun _ => r) s).
Proof.
  intros H. unfold sub. rewrite H. simpl. f_equal.
  apply sub_with_ext. intros m. apply expand_literal.
Qed.

(** *** [re.search] *)

Lemma nowhere_cons (O : str -> bool) (c : N) (s : str) :
  nowhere O (c :: s) <-> O (c :: s) = false /\ nowhere O s.
Proof.
  unfold nowhere. split.
  - intros H. split.
    + apply (H []). reflexivity.
    + intros pre post ->. apply (H (c :: pre)). reflexivity.
  - intros [H0 H] pre post Heq. destruct pre as [|x pre]; simpl in Heq.
    + subst post. exact H0.
    + injection Heq as _ ->. eapply H. reflexivity.
Qed.

Lemma nowhere_nil (O : str -> bool) : nowhere O [] <-> O [] = false.
Proof.
  unfold nowhere. split.
  - intros H. apply (H [] []). reflexivity.
  - intros H pre post Heq. symmetry in Heq. apply app_eq_nil in Heq as [_ ->]. exact H.
Qed.

Lemma nowhere_app_r (O : str -> bool) (a b : str) : nowhere O (a ++ b) -> nowhere O b.
Proof. intros H pre post ->. apply (H (a ++ pre)). rewrite app_assoc. reflexivity. Qed.

Lemma nowhere_drop (O : str -> bool) (k : nat) (s : str) : nowhere O s -> nowhere O (drop k s).
Proof. intros H. apply (nowhere_app_r O (take k s)). rewrite take_drop. exact H. Qed.

Lemma matches_false (ps : list piece) (s : str) :
  matches ps s = false <-> match_pieces ps s = None.
Proof.
  unfold matches. rewrite bool_decide_eq_false, <- eq_None_not_Some. reflexivity.
Qed.

Lemma search_none (ps : list piece) (s : str) :
  search ps s = None <-> nowhere (matches ps) s.
Proof.
  induction s as [|c s IH].
  - rewrite nowhere_nil, matches_false. simpl.
    destruct (match_pieces ps []) as [[n g]|]; split; congruence.
  - rewrite nowhere_cons, matches_false, <- IH. simpl.
    destruct (match_pieces ps (c :: s)) as [[n g]|]; split; try tauto; try congruence.
    intros [? ?]. congruence.
Qed.

(** Without a match [re.sub] copies its input. *)
Lemma sub_with_nowhere (ps : list piece) (repl : str -> str) (s : str) :
  search ps s = None -> sub_with ps repl s = s.
Proof.
  rewrite search_none. induction s as [|c s IH]; [reflexivity|].
  rewrite nowhere_cons, matches_false. intros [H0 H].
  rewrite sub_with_none by exact H0. rewrite IH by exact H. reflexivity.
Qed.

(** *** Windows

    A match reads a window of the text; what stands after a character
    that cannot be in the window does not change it. *)

Lemma window_before (W r u y : str) (b : N) :
  W ++ r = u ++ b :: y -> b ∉ W -> exists z, u = W ++ z.
Proof.
  revert u. induction W as [|c W IH]; intros u Heq Hb.
  - exists u. reflexivity.
  - destruct u as [|c' u]; simpl in Heq.
    + injection Heq as -> _. exfalso. apply Hb. left.
    + injection Heq as -> Heq.
      destruct (IH u Heq) as [z ->]; [intros H; apply Hb; right; exact H|].
      exists z. reflexivity.
Qed.

(** The window ends before an anchor [a1 ++ p :: _] when [p] cannot be in
    it and its last character cannot be in [a1]. *)
Lemma window_cut (Wi : str) (l : N) (r u a1 : str) (p : N) (t : str) :
  (Wi ++ [l]) ++ r = u ++ a1 ++ p :: t ->
  p ∉ Wi ++ [l] -> l ∉ a1 ->
  exists z, u = (Wi ++ [l]) ++ z.
Proof.
  intros Heq Hp Hl.
  rewrite app_assoc in Heq.
  destruct (window_before _ _ _ _ _ Heq Hp) as [z0 Hz0].
  clear Heq. revert z0 Hz0.
  induction a1 as [|q a1 IH] using rev_ind; intros z0 Hz0.
  - rewrite app_nil_r in Hz0. eauto.
  - destruct z0 as [|q' z0 _] using rev_ind.
    + rewrite app_nil_r, app_assoc in Hz0.
      apply app_inj_tail in Hz0 as [_ ->]. exfalso. apply Hl.
      apply elem_of_app. right. left.
    + rewrite !app_assoc in Hz0. apply app_inj_tail in Hz0 as [Hz0 _].
      apply (IH ltac:(intros H; apply Hl, elem_of_app; left; exact H) z0).
      rewrite Hz0, <- !app_assoc. reflexivity.
Qed.

(** *** Patterns of the shape literal, class, literal *)

Section LitClassLit.

Variables (a : str) (f : N -> bool) (lo : nat) (x : N) (b : str).
Hypothesis Hx : f x = false.

Local Abbreviation lcl := [Lit a; Class f lo; Lit (x :: b)].

Lemma match_lcl (s : str) :
  match_pieces lcl s
  = if starts_with a s then
      let r := drop (length a) s in
      if (lo <=? span f r)%nat then
        if starts_with (x :: b) (drop (span f r) r)
        then Some ((length a + (span f r + (length (x :: b) + 0)))%nat, [])
        else None
      else None
    else None.
Proof using Hx.
  cbn [match_pieces]. destruct (starts_with a s); [|reflexivity].
  generalize (drop (length a) s). intros r. cbv zeta.
  pose proof (match_class_lit f lo x b [] r Hx) as E.
  cbn [match_pieces] in E. cbn [match_pieces]. rewrite E. clear E.
  destruct (lo <=? span f r)%nat; [|reflexivity].
  destruct (starts_with (x :: b) (drop (span f r) r)); reflexivity.
Qed.

(** A match reads the window [a ++ D ++ x :: b], with [D] in the class. *)
Lemma match_lcl_window (s : str) (n : nat) (g : str) :
  match_pieces lcl s = Some (n, g) ->
  exists D r,
    s = a ++ D ++ (x :: b) ++ r /\ forallb f D = true /\ (lo <= length D)%nat /\
    n = length (a ++ D ++ x :: b) /\ g = [].
Proof using Hx.
  rewrite match_lcl.
  destruct (starts_with a s) eqn:Ea; [|discriminate].
  apply starts_with_spec in Ea as [t ->]. cbv zeta.
  rewrite drop_app_length.
  destruct (lo <=? span f t)%nat eqn:Elo; [|discriminate].
  destruct (starts_with (x :: b) (drop (span f t) t)) eqn:Eb; [|discriminate].
  apply starts_with_spec in Eb as [r Er].
  intros H. injection H as <- <-.
  exists (take (span f t) t), r.
  assert (Hlen : length (take (span f t) t) = span f t).
  { rewrite length_take. pose proof (span_le f t). lia. }
  repeat split.
  - rewrite <- Er, take_drop. reflexivity.
  - apply span_take.
  - rewrite Hlen. apply Nat.leb_le. exact Elo.
  - rewrite !length_app, Hlen. simpl. lia.
Qed.

Lemma match_lcl_intro (D r : str) :
  forallb f D = true -> (lo <= length D)%nat ->
  match_pieces lcl (a ++ D ++ (x :: b) ++ r) = Some (length (a ++ D ++ x :: b), []).
Proof using Hx.
  intros HD Hlo. rewrite match_lcl, starts_with_app. cbv zeta.
  rewrite drop_app_length.
  rewrite (span_app_all f D _ HD). cbn [app span]. rewrite Hx, Nat.add_0_r.
  rewrite drop_app_length.
  change (x :: b ++ r) with ((x :: b) ++ r). rewrite starts_with_app.
  apply Nat.leb_le in Hlo. rewrite Hlo.
  rewrite !length_app. simpl. do 2 f_equal. lia.
Qed.

(** What follows a character that is not in the window does not change
    the match. *)
Lemma match_lcl_barrier (c0 : N) (a' : str) (p : N) (c : N) (u y y' : str)
    (n : nat) (g : str) :
  a = c0 :: a' -> p ∉ a' -> f p = false -> p ∉ x :: b ->
  match_pieces lcl (c :: u ++ p :: y) = Some (n, g) ->
  match_pieces lcl (c :: u ++ p :: y') = Some (n, g) /\ (n <= S (length u))%nat.
Proof using Hx.
  intros Ha Hpa Hpf Hpb Hm.
  destruct (match_lcl_window _ _ _ Hm) as (D & r & Heq & HD & Hlo & -> & ->).
  rewrite Ha in Heq. simpl in Heq. injection Heq as -> Heq.
  assert (Hp : p ∉ a' ++ D ++ x :: b).
  { rewrite !elem_of_app. intros [H|[H|H]]; try contradiction.
    apply list_elem_of_In in H. rewrite forallb_forall in HD.
    rewrite (HD _ H) in Hpf. discriminate. }
  assert (Heq' : (a' ++ D ++ x :: b) ++ r = u ++ p :: y).
  { rewrite Heq, <- !app_assoc. reflexivity. }
  destruct (window_before _ _ _ _ _ Heq' Hp) as [z ->].
  split.
  - replace (c0 :: ((a' ++ D ++ x :: b) ++ z) ++ p :: y')
      with (a ++ D ++ (x :: b) ++ (z ++ p :: y'))
      by (rewrite Ha; simpl; rewrite <- !app_assoc; reflexivity).
    apply match_lcl_intro; assumption.
  - rewrite Ha. simpl. repeat (rewrite ?length_app; simpl). lia.
Qed.

Lemma match_lcl_barrier_eq (c0 : N) (a' : str) (p : N) (c : N) (u y y' : str) :
  a = c0 :: a' -> p ∉ a' -> f p = false -> p ∉ x :: b ->
  match_pieces lcl (c :: u ++ p :: y) = match_pieces lcl (c :: u ++ p :: y').
Proof using Hx.
  intros Ha Hpa Hpf Hpb.
  destruct (match_pieces lcl (c :: u ++ p :: y)) as [[n g]|] eqn:E.
  - symmetry. eapply match_lcl_barrier; eauto.
  - destruct (match_pieces lcl (c :: u ++ p :: y')) as [[n g]|] eqn:E'; [|reflexivity].
    eapply match_lcl_barrier in E' as [E' _]; eauto. rewrite E in E'. discriminate.
Qed.

(** A match starts with the first character of the literal. *)
Lemma match_lcl_head (c0 : N) (a' : str) (c : N) (s : str) :
  a = c0 :: a' -> c <> c0 -> match_pieces lcl (c :: s) = None.
Proof using Hx.
  intros Ha Hc. rewrite match_lcl, Ha, starts_with_cons_ne by exact Hc. reflexivity.
Qed.

End LitClassLit.

(** *** What a substitution keeps *)

Section SubstPreserves.

Variables (ps : list piece) (R B : str).
Hypothesis Hstart :
  forall s n g, match_pieces ps s = Some (n, g) -> starts_with B s = true.
Hypothesis HR : starts_with B R = true.

Local Abbreviation subR := (sub_with ps (fun _ => R)).

(** The output agrees with the input up to the first match, and both go
    on with [B] there. *)
Lemma sub_agrees (s : str) :
  subR s = s \/
  exists u y y', s = u ++ B ++ y /\ subR s = u ++ B ++ y' /\
                 match_pieces ps (B ++ y) <> None.
Proof using Hstart HR.
  apply (sub_with_ind ps (fun _ => R)
           (fun s out => out = s \/
              exists u y y', s = u ++ B ++ y /\ out = u ++ B ++ y' /\
                             match_pieces ps (B ++ y) <> None)).
  - left. reflexivity.
  - intros c r _ [->|(u & y & y' & -> & -> & Hm)].
    + left. reflexivity.
    + right. exists (c :: u), y, y'. repeat split. exact Hm.
  - intros c r n g Hm _. right.
    pose proof (Hstart _ _ _ Hm) as Hs. apply starts_with_spec in Hs as [y Hy].
    apply starts_with_spec in HR as [R' HR'].
    exists [], y, (R' ++ sub_with ps (fun _ => R) (drop (pred n) r)).
    repeat split.
    + exact Hy.
    + rewrite HR' at 1. rewrite <- app_assoc. reflexivity.
    + rewrite <- Hy, Hm. discriminate.
Qed.

Variable O : str -> bool.
Hypothesis Hbar : forall c u y y', O (c :: u ++ B ++ y) = O (c :: u ++ B ++ y').
Hypothesis Hin : forall t, nowhere O t -> nowhere O (R ++ t).
Hypothesis Hnil : O [] = false.

(** If [O] holds at no position that the substitution copies, it holds
    nowhere in the output. *)
Lemma sub_preserves_nowhere (s : str) :
  (forall pre c post, s = pre ++ c :: post ->
     match_pieces ps (c :: post) = None -> O (c :: post) = false) ->
  nowhere O (subR s).
Proof using Hstart HR Hbar Hin Hnil.
  apply (sub_with_ind ps (fun _ => R)
           (fun s out =>
              (forall pre c post, s = pre ++ c :: post ->
                 match_pieces ps (c :: post) = None -> O (c :: post) = false) ->
              nowhere O out)).
  - intros _. apply nowhere_nil. exact Hnil.
  - intros c r Hm IH H. apply nowhere_cons. split.
    + destruct (sub_agrees r) as [->|(u & y & y' & -> & -> & _)].
      * apply (H [] c r); [reflexivity|exact Hm].
      * rewrite (Hbar c u y' y). apply (H [] c _); [reflexivity|exact Hm].
    + apply IH. intros pre c' post -> Hm'. apply (H (c :: pre)); [reflexivity|exact Hm'].
  - intros c r n g Hm IH H. apply Hin, IH.
    intros pre c' post Heq Hm'.
    apply (H (c :: take (pred n) r ++ pre)); [|exact Hm'].
    simpl. rewrite <- app_assoc, <- Heq, take_drop. reflexivity.
Qed.

Lemma sub_preserves_absence (s : str) : nowhere O s -> nowhere O (subR s).
Proof using Hstart HR Hbar Hin Hnil.
  intros H. apply sub_preserves_nowhere. intros pre c post -> _.
  eapply H. reflexivity.
Qed.

End SubstPreserves.

(** [O] does not hold inside a literal none of whose characters can
    start it. *)
Lemma nowhere_app_literal (O : str -> bool) (R t : str) :
  Forall (fun c => forall r, O (c :: r) = false) R ->
  nowhere O t -> nowhere O (R ++ t).
Proof.
  intros HR Ht. induction HR as [|c R Hc HR IH]; [exact Ht|].
  simpl. apply nowhere_cons. split; [apply Hc|exact IH].
Qed.

(** *** Anchors that a substitution leaves in place *)

Section Sync.

Variables (ps : list piece) (repl : str -> str) (a : str).
Hypothesis Hinside :
  forall a1 a2 t, a = a1 ++ a2 -> a2 <> [] -> match_pieces ps (a2 ++ t) = None.
Hypothesis Hcross :
  forall c u t n g,
    match_pieces ps (c :: u ++ a ++ t) = Some (n, g) -> (n <= S (length u))%nat.

Lemma sub_anchor (t : str) : sub_with ps repl (a ++ t) = a ++ sub_with ps repl t.
Proof using Hinside.
  assert (H : forall a2 a1, a = a1 ++ a2 ->
                sub_with ps repl (a2 ++ t) = a2 ++ sub_with ps repl t).
  { induction a2 as [|c a2 IH]; intros a1 Ha; [reflexivity|].
    simpl. rewrite sub_with_none.
    - rewrite (IH (a1 ++ [c])); [reflexivity|]. rewrite <- app_assoc. exact Ha.
    - apply (Hinside a1 (c :: a2) t Ha). discriminate. }
  apply (H a []). reflexivity.
Qed.

Lemma sub_sync (u t : str) :
  exists u', sub_with ps repl (u ++ a ++ t) = u' ++ a ++ sub_with ps repl t.
Proof using Hinside Hcross.
  remember (length u) as m eqn:Hm. revert u Hm.
  induction m as [m IH] using lt_wf_ind. intros u Hm.
  destruct u as [|c u].
  - exists []. apply sub_anchor.
  - simpl. destruct (match_pieces ps (c :: u ++ a ++ t)) as [[n g]|] eqn:E.
    + rewrite (sub_with_some _ _ _ _ _ _ E).
      pose proof (Hcross _ _ _ _ _ E) as Hn.
      rewrite drop_app_le by lia.
      destruct (IH (length (drop (pred n) u))) with (u := drop (pred n) u) as [u' ->];
        [subst m; rewrite length_drop; simpl; lia|reflexivity|].
      eexists. rewrite app_assoc. reflexivity.
    + rewrite (sub_with_none _ _ _ _ E).
      destruct (IH (length u)) with (u := u) as [u' ->];
        [subst m; simpl; lia|reflexivity|].
      exists (c :: u'). reflexivity.
Qed.

End Sync.

End ReFacts.

(** * Properties of text normalization *)

Module NormalizeFacts.
Import PyStr Re Templates StrFacts ReFacts.

(** [re.sub(r'\s+', ' ', text)]. *)
Local Abbreviation collapse := (sub_with ws_re (fun _ => [32])).

Lemma collapse_nonspace (c : N) (s : str) :
  isspace c = false -> collapse (c :: s) = c :: collapse s.
Proof.
  intros Hc. apply sub_with_none. unfold ws_re.
  rewrite match_class_end, span_head_false by exact Hc. reflexivity.
Qed.

Lemma collapse_space (c : N) (s : str) :
  isspace c = true -> collapse (c :: s) = 32 :: collapse (drop (span isspace s) s).
Proof.
  intros Hc.
  assert (E : match_pieces ws_re (c :: s) = Some ((S (span isspace s) + 0)%nat, [])).
  { unfold ws_re. rewrite match_class_end. simpl span. rewrite Hc. reflexivity. }
  rewrite (sub_with_some _ _ _ _ _ _ E). simpl pred.
  rewrite Nat.add_0_r. reflexivity.
Qed.

Lemma collapse_ws_normal (s : str) : ws_normal (collapse s) = true.
Proof.
  remember (length s) as m eqn:Hm. revert s Hm.
  induction m as [m IH] using lt_wf_ind. intros s Hm.
  destruct s as [|c s]; [reflexivity|].
  destruct (isspace c) eqn:Hc.
  - rewrite collapse_space by exact Hc.
    assert (Hrest : ws_normal (collapse (drop (span isspace s) s)) = true).
    { apply (IH (length (drop (span isspace s) s))); [|reflexivity].
      subst m. rewrite length_drop. simpl. lia. }
    cbn [ws_normal]. rewrite Hrest.
    replace (isspace 32) with true by reflexivity. rewrite N.eqb_refl.
    destruct (span_drop_head isspace s) as [->|(x & r & -> & Hx)].
    + reflexivity.
    + rewrite collapse_nonspace by exact Hx. rewrite Hx. reflexivity.
  - rewrite collapse_nonspace by exact Hc. cbn [ws_normal]. rewrite Hc.
    apply (IH (length s)); [subst m; simpl; lia|reflexivity].
Qed.

Lemma collapse_fixed (s : str) : ws_normal s = true -> collapse s = s.
Proof.
  induction s as [|c s IH]; [reflexivity|].
  cbn [ws_normal]. rewrite andb_true_iff. intros [Hc Hs].
  destruct (isspace c) eqn:Ec.
  - rewrite collapse_space by exact Ec.
    apply andb_true_iff in Hc as [Hc Hnext]. apply N.eqb_eq in Hc. subst c.
    destruct s as [|x s]; [reflexivity|].
    apply negb_true_iff in Hnext. rewrite span_head_false by exact Hnext.
    simpl drop. rewrite IH by exact Hs. reflexivity.
  - rewrite collapse_nonspace by exact Ec. rewrite IH by exact Hs. reflexivity.
Qed.

Lemma collapse_elem (x : N) (s : str) : x ∈ collapse s -> x ∈ s \/ x = 32.
Proof.
  apply (sub_with_ind ws_re (fun _ => [32]) (fun s out => x ∈ out -> x ∈ s \/ x = 32)).
  - intros H. inversion H.
  - intros c r _ IH H. apply elem_of_cons in H as [->|H].
    + left. left.
    + destruct (IH H) as [?|?]; [left; right; assumption|right; assumption].
  - intros c r n g _ IH H. apply elem_of_app in H as [H|H].
    + apply list_elem_of_singleton in H. right. exact H.
    + destruct (IH H) as [Hin|?]; [left|right; assumption].
      right. rewrite <- (take_drop (pred n) r). apply elem_of_app. right. exact Hin.
Qed.

Lemma ws_normal_drop (k : nat) (s : str) : ws_normal s = true -> ws_normal (drop k s) = true.
Proof.
  revert k. induction s as [|c s IH]; intros k H; destruct k as [|k]; try assumption.
  simpl drop. apply IH. cbn [ws_normal] in H. apply andb_true_iff in H as [_ H]. exact H.
Qed.

Lemma ws_normal_take (k : nat) (s : str) : ws_normal s = true -> ws_normal (take k s) = true.
Proof.
  revert k. induction s as [|c s IH]; intros k H; destruct k as [|k]; try reflexivity.
  cbn [ws_normal] in H. apply andb_true_iff in H as [Hc Hs].
  simpl take. cbn [ws_normal]. rewrite (IH k Hs), andb_true_r.
  destruct (isspace c); [|reflexivity].
  apply andb_true_iff in Hc as [-> Hnext]. simpl.
  destruct s as [|x s]; destruct k; try reflexivity. exact Hnext.
Qed.

Lemma strip_ws_normal (s : str) : ws_normal s = true -> ws_normal (strip s) = true.
Proof.
  intros H. unfold strip.
  destruct (rstrip_prefix (lstrip s)) as [k ->].
  apply ws_normal_take. unfold lstrip. apply ws_normal_drop. exact H.
Qed.

Lemma strip_elem (x : N) (s : str) : x ∈ strip s -> x ∈ s.
Proof.
  unfold strip. destruct (rstrip_prefix (lstrip s)) as [k ->]. unfold lstrip.
  intros H.
  rewrite <- (take_drop (span isspace s) s). apply elem_of_app. right.
  rewrite <- (take_drop k (drop (span isspace s) s)). apply elem_of_app. left. exact H.
Qed.

Lemma lstrip_idem (s : str) : lstrip (lstrip s) = lstrip s.
Proof. apply lstrip_fixed. intros c r H. exact (lstrip_head _ _ _ H). Qed.

Lemma rstrip_idem (s : str) : rstrip (rstrip s) = rstrip s.
Proof. unfold rstrip. rewrite rev_involutive, lstrip_idem. reflexivity. Qed.

Lemma strip_idem (s : str) : strip (strip s) = strip s.
Proof.
  unfold strip at 1.
  assert (H : lstrip (strip s) = strip s).
  { apply lstrip_fixed. intros c r E. unfold strip in E.
    destruct (rstrip_prefix (lstrip s)) as [k Hk]. rewrite Hk in E.
    destruct (lstrip s) as [|c' r'] eqn:El; destruct k; try discriminate.
    simpl in E. injection E as <- _. exact (lstrip_head _ _ _ El). }
  rewrite H. unfold strip. apply rstrip_idem.
Qed.

Lemma normalize_text_unfold (t : str) :
  normalize_text t
  = strip (replace_char 44 [] (collapse (replace_char 8230 [46; 46; 46] t))).
Proof. reflexivity. Qed.




End NormalizeFacts.

(** * Properties of the template matcher *)

Module TemplateFacts.
Import PyStr Re Templates.

Lemma Qgtb_true (x y : Q) : Qgtb x y = true <-> (y < x)%Q.
Proof.
  unfold Qgtb. rewrite negb_true_iff. split.
  - intros H. apply Qnot_le_lt. intros Hle.
    apply Qle_bool_iff in Hle. congruence.
  - intros H. destruct (Qle_bool x y) eqn:E; [|reflexivity].
    apply Qle_bool_iff in E. exfalso. exact (Qlt_not_le _ _ H E).
Qed.

Lemma Qgtb_false (x y : Q) : Qgtb x y = false <-> (x <= y)%Q.
Proof.
  unfold Qgtb. rewrite negb_false_iff. apply Qle_bool_iff.
Qed.

Section Loop.

Variable lower : str -> str.
Variable q : str.

Local Abbreviation sc := (score lower q).
Local Abbreviation im := (is_match lower q).

(** What the loop leaves: either nothing beat the score it started from,
    or the first of the matched templates of highest score did. *)
Lemma best_loop_spec (ts : list template) :
  forall (i : nat) (bm : option (nat * template)) (bs : Q),
    (best_loop lower q ts i bm bs = (bm, bs) /\
     forall j t, ts !! j = Some t -> im t = true -> (sc t <= bs)%Q)
    \/
    (exists j t,
        best_loop lower q ts i bm bs = (Some ((i + j)%nat, t), sc t) /\
        ts !! j = Some t /\ im t = true /\ (bs < sc t)%Q /\
        forall j' t', ts !! j' = Some t' -> im t' = true ->
          (sc t' <= sc t)%Q /\ ((j' < j)%nat -> (sc t' < sc t)%Q)).
Proof.
  induction ts as [|t rest IH]; intros i bm bs; simpl.
  - left. split; [reflexivity|]. intros j t H. rewrite lookup_nil in H. discriminate.
  - destruct (im t) eqn:Hm.
    + destruct (Qgtb (sc t) bs) eqn:Hg.
      * apply Qgtb_true in Hg.
        destruct (IH (S i) (Some (i, t)) (sc t)) as [[Hr Hall]|(j & t2 & Hr & Hj & Hm2 & Hlt & Hmax)].
        -- right. exists O, t. rewrite Nat.add_0_r. repeat split; auto.
           ++ destruct j' as [|j']; simpl in H.
              ** injection H as <-. apply Qle_refl.
              ** eapply Hall; eauto.
           ++ intros Hlt. lia.
        -- right. exists (S j), t2. rewrite Nat.add_succ_r. repeat split; auto.
           ++ eapply Qlt_trans; eauto.
           ++ destruct j' as [|j']; simpl in H.
              ** injection H as <-. apply Qlt_le_weak; assumption.
              ** eapply Hmax; eauto.
           ++ intros Hj'. destruct j' as [|j']; simpl in H.
              ** injection H as <-. assumption.
              ** eapply Hmax; eauto. lia.
      * apply Qgtb_false in Hg.
        destruct (IH (S i) bm bs) as [[Hr Hall]|(j & t2 & Hr & Hj & Hm2 & Hlt & Hmax)].
        -- left. split; [assumption|]. intros j t' H Hm'.
           destruct j as [|j]; simpl in H.
           ++ injection H as <-. assumption.
           ++ eapply Hall; eauto.
        -- right. exists (S j), t2. rewrite Nat.add_succ_r. repeat split; auto.
           ++ destruct j' as [|j']; simpl in H.
              ** injection H as <-. apply Qlt_le_weak. eapply Qle_lt_trans; eauto.
              ** eapply Hmax; eauto.
           ++ intros Hj'. destruct j' as [|j']; simpl in H.
              ** injection H as <-. eapply Qle_lt_trans; eauto.
              ** eapply Hmax; eauto. lia.
    + destruct (IH (S i) bm bs) as [[Hr Hall]|(j & t2 & Hr & Hj & Hm2 & Hlt & Hmax)].
      * left. split; [assumption|]. intros j t' H Hm'.
        destruct j as [|j]; simpl in H.
        -- injection H as <-. congruence.
        -- eapply Hall; eauto.
      * right. exists (S j), t2. rewrite Nat.add_succ_r. repeat split; auto.
        -- destruct j' as [|j']; simpl in H.
           ++ injection H as <-. congruence.
           ++ eapply Hmax; eauto.
        -- intros Hj'. destruct j' as [|j']; simpl in H.
           ++ injection H as <-. congruence.
           ++ eapply Hmax; eauto. lia.
Qed.

End Loop.

(** From a fresh start the loop selects the first matched template of
    highest score, when that score is positive, and nothing otherwise. *)
Lemma find_best_spec (lower : str -> str) (ts : list template) (query ctx : str) :
  let nq := lower (normalize_text query) in
  (find_best lower ts query ctx = (None, 0%Q) /\
   forall j t, ts !! j = Some t -> is_match lower nq t = true ->
     (score lower nq t <= 0)%Q)
  \/
  (exists j t,
      find_best lower ts query ctx = (Some (j, t), score lower nq t) /\
      ts !! j = Some t /\ is_match lower nq t = true /\
      (0 < score lower nq t)%Q /\
      forall j' t', ts !! j' = Some t' -> is_match lower nq t' = true ->
        (score lower nq t' <= score lower nq t)%Q /\
        ((j' < j)%nat -> (score lower nq t' < score lower nq t)%Q)).
Proof.
  intros nq. unfold find_best. fold nq.
  destruct (best_loop_spec lower nq ts O None 0%Q) as [H|H]; [left|right]; exact H.
Qed.

(** No template is returned when none matches. *)
Lemma find_matching_template_no_match (lower : str -> str) (ts : list template)
    (query ctx : str) :
  (forall t, t ∈ ts -> is_match lower (lower (normalize_text query)) t = false) ->
  find_matching_template lower ts query ctx = None.
Proof.
  intros Hno. unfold find_matching_template.
  destruct (find_best_spec lower ts query ctx) as [[-> _]|(j & t & _ & Hj & Hm & _)].
  - reflexivity.
  - apply list_elem_of_lookup_2 in Hj. rewrite (Hno t Hj) in Hm. discriminate.
Qed.


Lemma score_empty_patterns (lower : str -> str) (nq : str) (t : template) :
  t_patterns t = [] -> (score lower nq t == inject_Z (priority_of t))%Q.
Proof.
  intros Hp. unfold score, match_ratio. rewrite Hp. simpl. ring.
Qed.

(** C8: the result of template matching does not depend on the context
    text: for every registry and query, any two context strings give the
    same result, because patterns are counted against the normalized
    query only. *)
Theorem find_matching_template_ignores_context (lower : str -> str)
    (registry : list template) (query context1 context2 : str) :
  find_matching_template lower registry query context1
  = find_matching_template lower registry query context2.
Proof. reflexivity. Qed.


(** C2 (amended): a template without patterns and without alternative
    groups satisfies [is_match] for every query, with its priority as its
    score; alone in a registry, with a positive priority, it is the
    template returned. *)
Theorem empty_patterns_always_match (lower : str -> str) (t : template) :
  t_patterns t = [] -> t_alternative_patterns t = [] ->
  (forall nq, is_match lower nq t = true) /\
  (forall nq, (score lower nq t == inject_Z (priority_of t))%Q) /\
  ((0 < priority_of t)%Z ->
   forall query context,
     (find_best lower [t] query context).1 = Some (O, t) /\
     r_id <$> find_matching_template lower [t] query context = Some (t_id t)).
Proof.
  intros Hp Ha.
  assert (Hm : forall nq, is_match lower nq t = true).
  { intros nq. unfold is_match. rewrite Hp. reflexivity. }
  split; [exact Hm|]. split; [intros nq; apply score_empty_patterns; exact Hp|].
  intros Hpos query context. unfold find_matching_template, find_best. simpl.
  rewrite Hm.
  assert (Hg : Qgtb (score lower (lower (normalize_text query)) t) 0 = true).
  { apply Qgtb_true. rewrite (score_empty_patterns lower _ t Hp).
    change 0%Q with (inject_Z 0). rewrite <- Zlt_Qlt. exact Hpos. }
  rewrite Hg. split; reflexivity.
Qed.

Lemma empty_patterns_always_match_witness :
  (forall nq, is_match lower_basic nq bare_template = true) /\
  (forall query context,
      r_id <$> find_matching_template lower_basic [bare_template] query context
      = Some (t_id bare_template)).
Proof.
  destruct (empty_patterns_always_match lower_basic bare_template eq_refl eq_refl)
    as (Hm & _ & Hsel).
  split; [exact Hm|]. intros query context. apply Hsel. reflexivity.
Defined.

(** The claim C2 fails on the code: a template with no patterns and no
    alternative groups matches, and is returned. *)
Lemma bare_template_is_matched :
  t_patterns bare_template = [] /\
  t_alternative_patterns bare_template = [] /\
  is_match lower_basic (lower_basic (normalize_text query_gln)) bare_template = true /\
  r_id <$> find_matching_template lower_basic [bare_template] query_gln []
    = Some (t_id bare_template).
Proof. repeat split; vm_compute; reflexivity. Qed.


(** The specification's example: query "Ошибка Duplicate PO (RUEDIGIPER)"
    against patterns "duplicate po", "ruedigiper" with priority 50 matches
    with ratio 1 and score 150. *)
Example duplicate_po_example :
  let nq := lower_basic (normalize_text query_duplicate_po) in
  is_match lower_basic nq duplicate_po_template = true /\
  (match_ratio lower_basic nq duplicate_po_template == 1)%Q /\
  (score lower_basic nq duplicate_po_template == 150)%Q.
Proof. repeat split. Qed.

(** C4: the matcher returns nothing although a template satisfies
    [is_match]: a template matched through its alternative group only,
    with no main pattern found and no priority, scores 0, and 0 does not
    exceed the score the loop starts from. *)
Theorem alt_only_match_is_dropped :
  let nq := lower_basic (normalize_text query_gln) in
  is_match lower_basic nq alt_only_template = true /\
  (score lower_basic nq alt_only_template == 0)%Q /\
  find_matching_template lower_basic [alt_only_template] query_gln [] = None.
Proof. repeat split. Qed.

(** *** The registry stays sorted *)

Lemma insert_by_priority_Forall (P : template -> Prop) (t : template) (l : list template) :
  P t -> Forall P l -> Forall P (insert_by_priority t l).
Proof.
  intros Ht Hl. induction Hl as [|u l Hu Hl IH]; simpl.
  - constructor; [assumption|constructor].
  - destruct (priority_of t <? priority_of u)%Z.
    + constructor; assumption.
    + constructor; [assumption|]. constructor; assumption.
Qed.

Lemma insert_by_priority_sorted (t : template) (l : list template) :
  sorted_desc l -> sorted_desc (insert_by_priority t l).
Proof.
  unfold sorted_desc. intros Hl. induction Hl as [|u l Hl IH Hu]; simpl.
  - constructor; constructor.
  - destruct (priority_of t <? priority_of u)%Z eqn:E.
    + constructor; [exact IH|].
      apply insert_by_priority_Forall; [|exact Hu].
      unfold priority_ge. apply Z.ltb_lt in E. lia.
    + apply Z.ltb_ge in E. constructor.
      * constructor; assumption.
      * constructor; [exact E|].
        eapply Forall_impl; [exact Hu|]. unfold priority_ge. intros a Ha. lia.
Qed.

Lemma sort_by_priority_sorted (l : list template) : sorted_desc (sort_by_priority l).
Proof.
  induction l as [|t l IH]; simpl.
  - constructor.
  - apply insert_by_priority_sorted. exact IH.
Qed.

Lemma insert_by_priority_perm (t : template) (l : list template) :
  Permutation (insert_by_priority t l) (t :: l).
Proof.
  induction l as [|u l IH]; simpl; [reflexivity|].
  destruct (priority_of t <? priority_of u)%Z; [|reflexivity].
  rewrite IH. apply perm_swap.
Qed.

(** The sort keeps the templates it is given. *)
Lemma sort_by_priority_perm (l : list template) : Permutation (sort_by_priority l) l.
Proof.
  induction l as [|t l IH]; simpl; [reflexivity|].
  rewrite insert_by_priority_perm. constructor. exact IH.
Qed.

Lemma insert_by_priority_filter (p : Z) (t : template) (l : list template) :
  sorted_desc l ->
  List.filter (fun u => Z.eqb (priority_of u) p) (insert_by_priority t l)
  = List.filter (fun u => Z.eqb (priority_of u) p) (t :: l).
Proof.
  unfold sorted_desc. intros Hl. induction Hl as [|u l Hl IH Hu]; [reflexivity|].
  simpl. destruct (priority_of t <? priority_of u)%Z eqn:E; [|reflexivity].
  simpl. simpl in IH. rewrite IH. apply Z.ltb_lt in E.
  destruct (Z.eqb (priority_of u) p) eqn:Eu, (Z.eqb (priority_of t) p) eqn:Et;
    try reflexivity.
  apply Z.eqb_eq in Eu, Et. lia.
Qed.

(** The sort is stable: templates of one priority keep their order. *)
Lemma sort_by_priority_stable (p : Z) (l : list template) :
  List.filter (fun u => Z.eqb (priority_of u) p) (sort_by_priority l)
  = List.filter (fun u => Z.eqb (priority_of u) p) l.
Proof.
  induction l as [|t l IH]; [reflexivity|].
  simpl sort_by_priority.
  rewrite insert_by_priority_filter by apply sort_by_priority_sorted.
  simpl. rewrite IH. reflexivity.
Qed.

Lemma load_config_sorted (self : manager) (file : option config_data) (m : manager) :
  load_config self file = Some m -> sorted_desc (templates m).
Proof.
  unfold load_config. destruct file as [data|]; simpl; [|discriminate].
  intros H. injection H as <-. simpl. apply sort_by_priority_sorted.
Qed.

Lemma add_template_sorted (self : manager) (file : option config_data) (disk_ok : bool)
    (template_id name description : str) (patterns : list str)
    (action msg_file : str) (priority : Z) (comment : str) :
  sorted_desc (templates self) ->
  sorted_desc (templates (add_template self file disk_ok template_id name description
                            patterns action msg_file priority comment).1.1).
Proof.
  intros Hs. unfold add_template.
  destruct (existsb _ (templates self)); [exact Hs|].
  destruct disk_ok; simpl; apply sort_by_priority_sorted.
Qed.

(** C9: the template list of the registry is sorted by descending
    priority (a missing priority counting as 0) after the initial load,
    after every reload and after every [add_template] call. *)
Theorem registry_sorted_invariant (m : manager) :
  reachable m -> sorted_desc (templates m).
Proof.
  induction 1 as [path file m Hinit|m file m' _ _ Hre|m file ok id name desc pats act msg prio cmt _ IH].
  - eapply load_config_sorted. exact Hinit.
  - eapply load_config_sorted. exact Hre.
  - apply add_template_sorted. exact IH.
Qed.

Lemma registry_sorted_invariant_witness :
  exists m,
    init (lit "templates/error_templates_config.json") (Some two_template_file) = Some m /\
    sorted_desc
      (templates
         (add_template m (Some two_template_file) true (lit "new") (lit "new")
            (lit "new") [lit "gln"] (lit "push_and_notify") (lit "new.msg") 10 []).1.1).
Proof.
  eexists. split; [reflexivity|].
  apply registry_sorted_invariant.
  apply reach_add.
  apply (reach_init (lit "templates/error_templates_config.json") (Some two_template_file)).
  reflexivity.
Defined.

End TemplateFacts.

(** * Properties of the [/api/messages] error boundary *)

Module MessageFacts.
Import PyStr Messages.

(** Once [mode] is read, every failure of the body is mapped to a
    structured response. *)
Lemma messages_try_body_is_caught (db_insert : json -> option exn)
    (try_body : json -> json -> json -> body_result)
    (d : list (str * json)) (user_message mode : json) :
  dict_lookup TEXT d = Some user_message ->
  dict_lookup MODE d = Some mode ->
  db_insert user_message = None ->
  exists status body,
    messages db_insert try_body (JObj d) = Response status body /\
    (status = 200 \/ status = 503 \/ status = 500)%nat.
Proof.
  intros Ht Hm Hdb. unfold messages.
  destruct d as [|kv d]; [discriminate|].
  cbn [falsy contains getitem]. rewrite Ht, Hm, Hdb.
  rewrite bool_decide_eq_true_2 by eauto.
  destruct (try_body _ _ _) as [body|[]]; eauto 6.
Qed.

(** A transport failure of the generation call is reported as 503, any
    other failure of the body as 500. *)
Lemma messages_status_of_failure (db_insert : json -> option exn)
    (try_body : json -> json -> json -> body_result)
    (d : list (str * json)) (user_message mode : json) (e : exn) :
  dict_lookup TEXT d = Some user_message ->
  dict_lookup MODE d = Some mode ->
  db_insert user_message = None ->
  try_body user_message
    (match dict_lookup DATASETS d with Some v => v | None => JArr [] end) mode
  = Raises e ->
  exists body,
    messages db_insert try_body (JObj d)
    = Response (match e with RequestException => 503 | _ => 500 end) body.
Proof.
  intros Ht Hm Hdb Hbody. unfold messages.
  destruct d as [|kv d]; [discriminate|].
  cbn [falsy contains getitem]. rewrite Ht, Hm, Hdb.
  rewrite bool_decide_eq_true_2 by eauto.
  destruct (dict_lookup DATASETS (kv :: d)); rewrite Hbody; destruct e; eauto.
Qed.

(** A body without [text] is answered with 400. *)
Lemma messages_missing_text (db_insert : json -> option exn)
    (try_body : json -> json -> json -> body_result) (d : list (str * json)) :
  dict_lookup TEXT d = None ->
  messages db_insert try_body (JObj d) = invalid_input.
Proof.
  intros Ht. unfold messages. destruct d as [|kv d]; [reflexivity|].
  cbn [falsy contains]. rewrite Ht.
  rewrite bool_decide_eq_false_2; [reflexivity|]. intros [v Hv]. discriminate.
Qed.

(** C3: a JSON body with [text] and without [mode] makes the handler
    raise [KeyError] before the [try] block is entered: the exception is
    not mapped to any structured outcome, whatever the body of the [try]
    block would do. *)
Theorem messages_missing_mode_uncaught
    (try_body : json -> json -> json -> body_result) (user_message : json) :
  messages (fun _ => None) try_body (JObj [(TEXT, user_message)]) = Uncaught KeyError.
Proof. reflexivity. Qed.

(** A JSON body that is a number is not caught either. *)
Example messages_number_uncaught
    (try_body : json -> json -> json -> body_result) :
  messages (fun _ => None) try_body (JNum 5) = Uncaught TypeError.
Proof. reflexivity. Qed.

End MessageFacts.

(** * Properties of the citation validator *)

Module SourcesFacts.
Import PyStr Re Sources StrFacts ReFacts.

(** The three substitutions of the invalidating branches. *)
Local Abbreviation strip_markers := (sub_with marker_re (fun _ => [])).
Local Abbreviation zero_conf := (sub_with conf_re (fun _ => CONF_ZERO)).
Local Abbreviation not_found := (sub_with sources_re (fun _ => NOT_FOUND)).

Lemma invalidate_eq (s : str) :
  invalidate s = Some (not_found (zero_conf (strip_markers s))).
Proof.
  unfold invalidate.
  rewrite (sub_literal marker_re [] s) by reflexivity. cbn [mbind option_bind].
  rewrite (sub_literal conf_re CONF_ZERO) by reflexivity. cbn [mbind option_bind].
  apply sub_literal. reflexivity.
Qed.

Lemma check_item_eq (actual_docs : list str) (links_dict : gmap str str) (item : str) :
  check_item actual_docs links_dict item
  = Some (item, find_link (clean_label item) actual_docs links_dict).
Proof.
  unfold check_item, clean_label.
  rewrite (sub_literal tag_re [] item) by reflexivity. reflexivity.
Qed.

Lemma mapM_check_item (actual_docs : list str) (links_dict : gmap str str)
    (items : list str) :
  mapM (check_item actual_docs links_dict) items
  = Some (map (fun item => (item, find_link (clean_label item) actual_docs links_dict))
            items).
Proof.
  induction items as [|item items IH]; [reflexivity|].
  cbn [mapM map]. rewrite check_item_eq, IH. reflexivity.
Qed.

(** Without a label that resolves to a link the validator takes an
    invalidating branch. *)
Lemma process_sources_invalidates (response_text : str) (actual_docs : list str)
    (links_dict : gmap str str) :
  no_label_linked response_text actual_docs links_dict ->
  process_sources response_text actual_docs links_dict = invalidate response_text.
Proof.
  unfold no_label_linked, candidate_labels, process_sources.
  destruct (search sources_re response_text) as [content|]; [|reflexivity].
  intros Hno. rewrite mapM_check_item. cbn [mbind option_bind].
  replace (existsb _ _) with false; [reflexivity|].
  symmetry. apply not_true_is_false. intros H.
  apply existsb_exists in H as [[item link] [Hin Hlink]].
  apply in_map_iff in Hin as (item' & Heq & Hin). injection Heq as <- <-.
  cbn [snd] in Hlink. apply bool_decide_eq_true in Hlink as [l Hl].
  rewrite Hno in Hl; [discriminate|].
  apply list_elem_of_In, in_map. exact Hin.
Qed.

Lemma find_link_no_match (label : str) (actual_docs : list str) (links_dict : gmap str str) :
  (forall path, path ∈ actual_docs -> label_matches label path = false) ->
  find_link label actual_docs links_dict = None.
Proof.
  induction actual_docs as [|path rest IH]; intros H; [reflexivity|].
  cbn [find_link]. rewrite H by left. apply IH. intros p Hp. apply H. right. exact Hp.
Qed.

Lemma find_link_no_links (label : str) (actual_docs : list str) :
  find_link label actual_docs ∅ = None.
Proof.
  induction actual_docs as [|path rest IH]; [reflexivity|].
  cbn [find_link]. rewrite lookup_empty, IH. destruct (label_matches label path); reflexivity.
Qed.

Lemma no_label_matches_linked (response_text : str) (actual_docs : list str)
    (links_dict : gmap str str) :
  no_label_matches response_text actual_docs ->
  no_label_linked response_text actual_docs links_dict.
Proof.
  intros H label Hl. apply find_link_no_match. intros path Hp. exact (H label path Hl Hp).
Qed.

(** *** The three patterns *)

Lemma marker_window (s : str) (n : nat) (g : str) :
  match_pieces marker_re s = Some (n, g) ->
  exists D r, s = 91 :: D ++ 93 :: r /\ forallb isdecimal D = true /\
              (1 <= length D)%nat.
Proof.
  intros H.
  destruct (match_lcl_window [91] isdecimal 1 93 [] eq_refl s n g H)
    as (D & r & -> & HD & Hlo & _). eauto.
Qed.

Lemma marker_head (c : N) (s : str) : c <> 91 -> match_pieces marker_re (c :: s) = None.
Proof. apply (match_lcl_head [91] isdecimal 1 93 [] eq_refl 91 []). reflexivity. Qed.

Lemma marker_barrier (p c : N) (u y y' : str) :
  isdecimal p = false -> p <> 93 ->
  matches marker_re (c :: u ++ p :: y) = matches marker_re (c :: u ++ p :: y').
Proof.
  intros Hp Hp'. unfold matches.
  assert (E : match_pieces marker_re (c :: u ++ p :: y)
              = match_pieces marker_re (c :: u ++ p :: y')).
  { apply (match_lcl_barrier_eq [91] isdecimal 1 93 [] eq_refl 91 [] p c u y y' eq_refl).
    - intros H. inversion H.
    - exact Hp.
    - intros H. apply list_elem_of_singleton in H. contradiction. }
  rewrite E. reflexivity.
Qed.

Lemma marker_intro (D t : str) :
  forallb isdecimal D = true -> (1 <= length D)%nat ->
  matches marker_re (91 :: D ++ 93 :: t) = true.
Proof.
  intros HD Hlo. unfold matches.
  pose proof (match_lcl_intro [91] isdecimal 1 93 [] eq_refl D t HD Hlo) as E.
  cbn [app] in E. unfold marker_re. rewrite E.
  apply bool_decide_eq_true. eauto.
Qed.

Lemma marker_empty (t : str) : matches marker_re (91 :: 93 :: t) = false.
Proof. reflexivity. Qed.

Lemma nested_intro (D t : str) :
  forallb isdecimal D = true -> matches nested_re (91 :: D ++ 91 :: t) = true.
Proof.
  intros HD. unfold matches.
  pose proof (match_lcl_intro [91] isdecimal 0 91 [] eq_refl D t HD (Nat.le_0_l _)) as E.
  cbn [app] in E. unfold nested_re. rewrite E.
  apply bool_decide_eq_true. eauto.
Qed.

Lemma conf_head (c : N) (s : str) : c <> 1058 -> match_pieces conf_re (c :: s) = None.
Proof.
  apply (match_lcl_head CONF_HEAD isdecimal 1 47 (tail CONF_TAIL) eq_refl 1058
           (tail CONF_HEAD)). reflexivity.
Qed.

Lemma conf_starts (s : str) (n : nat) (g : str) :
  match_pieces conf_re s = Some (n, g) -> starts_with [1058] s = true.
Proof.
  intros H. destruct s as [|c s].
  - vm_compute in H. discriminate.
  - destruct (N.eq_dec c 1058) as [->|Hc]; [reflexivity|].
    rewrite conf_head in H by exact Hc. discriminate.
Qed.

Lemma conf_barrier (p c : N) (u y y' : str) (n : nat) (g : str) :
  conf_poison p ->
  match_pieces conf_re (c :: u ++ p :: y) = Some (n, g) ->
  match_pieces conf_re (c :: u ++ p :: y') = Some (n, g) /\ (n <= S (length u))%nat.
Proof.
  intros (H1 & H2 & H3).
  apply (match_lcl_barrier CONF_HEAD isdecimal 1 47 (tail CONF_TAIL) eq_refl 1058
           (tail CONF_HEAD) p c u y y' n g eq_refl H1 H2 H3).
Qed.

Lemma nonzero_conf_barrier (p c : N) (u y y' : str) :
  conf_poison p ->
  nonzero_conf (c :: u ++ p :: y) = nonzero_conf (c :: u ++ p :: y').
Proof.
  intros Hp.
  assert (H : forall y y', nonzero_conf (c :: u ++ p :: y) = true ->
                           nonzero_conf (c :: u ++ p :: y') = true).
  { clear y y'. intros y y'. unfold nonzero_conf.
    destruct (match_pieces conf_re (c :: u ++ p :: y)) as [[n g]|] eqn:E; [|discriminate].
    destruct (conf_barrier p c u y y' n g Hp E) as [-> Hn].
    change (c :: u ++ p :: y) with ((c :: u) ++ p :: y).
    change (c :: u ++ p :: y') with ((c :: u) ++ p :: y').
    rewrite !take_app_le by (simpl; lia). tauto. }
  destruct (nonzero_conf (c :: u ++ p :: y)) eqn:E.
  - symmetry. eapply H. exact E.
  - destruct (nonzero_conf (c :: u ++ p :: y')) eqn:E'; [|reflexivity].
    rewrite (H y' y E') in E. discriminate.
Qed.

Lemma nonzero_conf_head (c : N) (s : str) : c <> 1058 -> nonzero_conf (c :: s) = false.
Proof. intros H. unfold nonzero_conf. rewrite conf_head by exact H. reflexivity. Qed.

Lemma matches_marker_head (c : N) (s : str) : c <> 91 -> matches marker_re (c :: s) = false.
Proof. intros H. apply matches_false, marker_head, H. Qed.

(** The Sources pattern: its head, then the first [</ol>]. *)
Lemma match_sources (s : str) :
  match_pieces sources_re s
  = match sources_head s with
    | Some w =>
        match find_first OL_CLOSE (drop w s) with
        | Some i => Some ((w + (i + 5))%nat, take i (drop w s))
        | None => None
        end
    | None => None
    end.
Proof.
  unfold sources_re, sources_head. cbn [match_pieces].
  destruct (starts_with H3_SOURCES s); [|reflexivity].
  set (r := drop (length H3_SOURCES) s).
  pose proof (match_class_lit isspace 0 60 (tail OL_OPEN) [LazyDot; Lit OL_CLOSE] r eq_refl) as E.
  change (60 :: tail OL_OPEN) with OL_OPEN in E.
  cbn [match_pieces] in E. rewrite E. clear E. cbv zeta.
  cbn [Nat.leb].
  destruct (starts_with OL_OPEN (drop (span isspace r) r)); [|reflexivity].
  pose proof (try_lazy_lit OL_CLOSE (drop (length OL_OPEN) (drop (span isspace r) r))) as E.
  cbn [match_pieces] in E. rewrite E. clear E.
  subst r. rewrite !drop_drop.
  replace (length H3_SOURCES + (span isspace (drop (length H3_SOURCES) s) + length OL_OPEN))%nat
    with (length H3_SOURCES + span isspace (drop (length H3_SOURCES) s) + length OL_OPEN)%nat
    by lia.
  destruct (find_first OL_CLOSE _) as [i|]; [|reflexivity].
  f_equal. f_equal. change (length OL_CLOSE) with 5%nat. lia.
Qed.

Lemma sources_starts (s : str) (n : nat) (g : str) :
  match_pieces sources_re s = Some (n, g) -> starts_with H3_SOURCES s = true.
Proof.
  rewrite match_sources. unfold sources_head.
  destruct (starts_with H3_SOURCES s); [reflexivity|discriminate].
Qed.

Lemma starts_with_prefix (p1 p2 s : str) :
  starts_with (p1 ++ p2) s = true -> starts_with p1 s = true.
Proof.
  rewrite !starts_with_spec. intros [t ->]. rewrite <- app_assoc. eauto.
Qed.

(** *** Bracket-numbered markers *)

Lemma strip_markers_digits (D t : str) :
  forallb isdecimal D = true -> strip_markers (D ++ t) = D ++ strip_markers t.
Proof.
  induction D as [|d D IH]; [reflexivity|].
  cbn [forallb]. rewrite andb_true_iff. intros [Hd HD].
  simpl. rewrite sub_with_none.
  - rewrite IH by exact HD. reflexivity.
  - apply marker_head. intros ->. discriminate.
Qed.

(** One pass removes every marker of a text whose brackets are not
    nested. *)
Lemma strip_markers_clean (s : str) :
  nowhere (matches nested_re) s -> nowhere (matches marker_re) (strip_markers s).
Proof.
  apply (sub_with_ind marker_re (fun _ => [])
           (fun s out => nowhere (matches nested_re) s -> nowhere (matches marker_re) out)).
  - intros _. apply nowhere_nil. reflexivity.
  - intros c r Hm IH Hn. apply nowhere_cons in Hn as [Hn0 Hn].
    apply nowhere_cons. split; [|exact (IH Hn)].
    destruct (N.eq_dec c 91) as [->|Hc]; [|apply matches_marker_head, Hc].
    pose proof (span_take isdecimal r) as HD.
    pose proof (take_drop (span isdecimal r) r) as Hr.
    destruct (span_drop_head isdecimal r) as [E|(x & r2 & E & Hx)]; rewrite E in Hr.
    + rewrite app_nil_r in Hr. rewrite Hr in HD.
      rewrite <- (app_nil_r r), strip_markers_digits, app_nil_r by exact HD.
      apply matches_false. exact Hm.
    + rewrite <- Hr in Hm, Hn0 |- *. set (D := take (span isdecimal r) r) in *.
      assert (Hx91 : x <> 91).
      { intros ->. rewrite nested_intro in Hn0 by exact HD. discriminate. }
      rewrite strip_markers_digits by exact HD.
      rewrite (sub_with_none marker_re _ x r2 (marker_head x r2 Hx91)).
      destruct (N.eq_dec x 93) as [->|Hx93].
      * destruct D as [|d D'] eqn:ED.
        -- apply marker_empty.
        -- apply matches_false in Hm. rewrite marker_intro in Hm; [discriminate|exact HD|].
           simpl. lia.
      * rewrite (marker_barrier x 91 D _ r2 Hx Hx93). apply matches_false. exact Hm.
  - intros c r n g _ IH Hn. apply IH.
    apply nowhere_cons in Hn as [_ Hn]. apply nowhere_drop. exact Hn.
Qed.

Ltac literal_forall tac :=
  repeat (constructor; [intros ?; apply tac; discriminate|]); constructor.

(** Zeroing the confidence markers forms no bracket-numbered marker. *)
Lemma zero_conf_keeps_clean (s : str) :
  nowhere (matches marker_re) s -> nowhere (matches marker_re) (zero_conf s).
Proof.
  apply (sub_preserves_absence conf_re CONF_ZERO [1058]).
  - exact conf_starts.
  - reflexivity.
  - intros c u y y'. apply marker_barrier; [reflexivity|discriminate].
  - intros t. apply nowhere_app_literal. unfold CONF_ZERO.
    literal_forall matches_marker_head.
  - reflexivity.
Qed.

(** Neither does the "not found" marker. *)
Lemma not_found_keeps_clean (s : str) :
  nowhere (matches marker_re) s -> nowhere (matches marker_re) (not_found s).
Proof.
  apply (sub_preserves_absence sources_re NOT_FOUND [60]).
  - intros t n g H. apply sources_starts in H.
    exact (starts_with_prefix [60] (tail H3_SOURCES) t H).
  - reflexivity.
  - intros c u y y'. apply marker_barrier; [reflexivity|discriminate].
  - intros t. apply nowhere_app_literal. unfold NOT_FOUND.
    literal_forall matches_marker_head.
  - reflexivity.
Qed.

(** *** Confidence markers *)

Lemma nonzero_conf_zero (t : str) : nonzero_conf (CONF_ZERO ++ t) = false.
Proof.
  unfold nonzero_conf.
  pose proof (match_lcl_intro CONF_HEAD isdecimal 1 47 (tail CONF_TAIL) eq_refl [48] t
                eq_refl (le_n 1)) as E.
  change (CONF_HEAD ++ [48] ++ (47 :: tail CONF_TAIL) ++ t) with (CONF_ZERO ++ t) in E.
  unfold conf_re.
  change (Lit CONF_TAIL) with (Lit (47 :: tail CONF_TAIL)). rewrite E.
  reflexivity.
Qed.

(** After the substitution every confidence marker reads 0/10. *)
Lemma zero_conf_reads_zero (s : str) : confidence_reads_zero (zero_conf s).
Proof.
  apply (sub_preserves_nowhere conf_re CONF_ZERO [1058]).
  - exact conf_starts.
  - reflexivity.
  - intros c u y y'. apply nonzero_conf_barrier. repeat split.
    + intros H. vm_compute in H. elem_of_literal H.
    + intros H. vm_compute in H. elem_of_literal H.
  - intros t Ht. change (CONF_ZERO ++ t) with (1058 :: tail CONF_ZERO ++ t).
    apply nowhere_cons. split; [apply (nonzero_conf_zero t)|].
    apply nowhere_app_literal; [|exact Ht]. unfold CONF_ZERO. cbn [tail].
    literal_forall nonzero_conf_head.
  - reflexivity.
  - intros pre c post _ Hm. unfold nonzero_conf. rewrite Hm. reflexivity.
Qed.

(** The "not found" marker forms no confidence marker. *)
Lemma not_found_keeps_zero (s : str) :
  confidence_reads_zero s -> confidence_reads_zero (not_found s).
Proof.
  apply (sub_preserves_absence sources_re NOT_FOUND [60; 104]).
  - intros t n g H. apply sources_starts in H.
    exact (starts_with_prefix [60; 104] (tail (tail H3_SOURCES)) t H).
  - reflexivity.
  - intros c u y y'.
    change (c :: u ++ [60; 104] ++ y) with (c :: u ++ [60] ++ 104 :: y).
    change (c :: u ++ [60; 104] ++ y') with (c :: u ++ [60] ++ 104 :: y').
    rewrite !app_assoc. apply nonzero_conf_barrier. repeat split.
    + intros H. vm_compute in H. elem_of_literal H.
    + intros H. vm_compute in H. elem_of_literal H.
  - intros t. apply nowhere_app_literal. unfold NOT_FOUND.
    literal_forall nonzero_conf_head.
  - reflexivity.
Qed.

(** *** The Sources section *)

Lemma isspace_not_lt (W : str) : forallb isspace W = true -> 60 ∉ W.
Proof.
  intros HW H. apply list_elem_of_In in H.
  rewrite forallb_forall in HW. specialize (HW _ H). discriminate.
Qed.

(** The head of the pattern reads the heading, whitespace and [<ol>]. *)
Lemma sources_head_window (s : str) (w : nat) :
  sources_head s = Some w <->
  exists W r, s = (H3_SOURCES ++ W ++ OL_OPEN) ++ r /\ forallb isspace W = true /\
              w = length (H3_SOURCES ++ W ++ OL_OPEN).
Proof.
  unfold sources_head. split.
  - destruct (starts_with H3_SOURCES s) eqn:E1; [|discriminate].
    apply starts_with_spec in E1 as [t ->]. cbv zeta. rewrite drop_app_length.
    destruct (starts_with OL_OPEN (drop (span isspace t) t)) eqn:E2; [|discriminate].
    apply starts_with_spec in E2 as [r Er]. intros H. injection H as <-.
    exists (take (span isspace t) t), r.
    assert (Hlen : length (take (span isspace t) t) = span isspace t).
    { rewrite length_take. pose proof (span_le isspace t). lia. }
    repeat split.
    + rewrite <- !app_assoc, <- Er, take_drop. reflexivity.
    + apply span_take.
    + rewrite !length_app, Hlen. reflexivity.
  - intros (W & r & -> & HW & ->).
    rewrite <- !app_assoc, starts_with_app. cbv zeta. rewrite drop_app_length.
    rewrite (span_app_all isspace W _ HW).
    change (span isspace (OL_OPEN ++ r)) with O. rewrite Nat.add_0_r, drop_app_length.
    rewrite starts_with_app, !length_app. reflexivity.
Qed.

Lemma sources_head_ext (a b : str) (w : nat) :
  sources_head a = Some w -> sources_head (a ++ b) = Some w /\ (w <= length a)%nat.
Proof.
  intros H. apply sources_head_window in H as (W & r & -> & HW & ->). split.
  - apply sources_head_window. exists W, (r ++ b). rewrite <- !app_assoc. auto.
  - rewrite (length_app (_ ++ _) r). lia.
Qed.

(** The heading does not start again inside itself, *)
Lemma heading_no_inner (c : N) (a0 l : str) :
  H3_SOURCES = c :: a0 ++ 60 :: 104 :: l -> False.
Proof.
  unfold H3_SOURCES. intros E. injection E as _ E.
  do 17 (destruct a0 as [|? a0]; simpl in E; [discriminate E|injection E as _ E]).
  destruct a0; discriminate E.
Qed.

(** nor inside [<ol>]. *)
Lemma ol_no_heading (z l : str) : OL_OPEN = z ++ 60 :: 104 :: l -> False.
Proof.
  unfold OL_OPEN. intros E.
  do 4 (destruct z as [|? z]; simpl in E; [discriminate E|injection E as _ E]).
  destruct z; discriminate E.
Qed.

(** The head of the pattern does not reach into a heading that stands
    after its start. *)
Lemma head_window_cut (W r a y : str) :
  forallb isspace W = true -> a <> [] ->
  (H3_SOURCES ++ W ++ OL_OPEN) ++ r = a ++ H3_SOURCES ++ y ->
  exists z, a = (H3_SOURCES ++ W ++ OL_OPEN) ++ z.
Proof.
  intros HW Ha Heq.
  apply app_eq_app in Heq as [l [[Hwin Hrest]|[Hwin _]]]; [|eauto].
  destruct l as [|l0 l]; [rewrite app_nil_r in Hwin; exists []; rewrite app_nil_r; auto|].
  exfalso.
  assert (Hl0 : l0 = 60) by (unfold H3_SOURCES in Hrest; simpl in Hrest; congruence).
  subst l0. destruct l as [|l1 l].
  { change (H3_SOURCES ++ W ++ OL_OPEN) with (H3_SOURCES ++ W ++ [60; 111; 108] ++ [62]) in Hwin.
    rewrite !app_assoc in Hwin. apply app_inj_tail in Hwin as [_ Hwin]. discriminate. }
  assert (Hl1 : l1 = 104) by (unfold H3_SOURCES in Hrest; simpl in Hrest; congruence).
  subst l1. destruct a as [|c a0]; [contradiction|]. clear Ha Hrest.
  apply app_eq_app in Hwin as [l2 [[HH Hl2]|[Ha0 HWO]]].
  - destruct l2 as [|x1 [|x2 l3]].
    + simpl in Hl2. destruct W as [|w0 W'].
      * exact (ol_no_heading [] l (eq_sym Hl2)).
      * simpl in Hl2. injection Hl2 as <- _. discriminate HW.
    + simpl in Hl2. injection Hl2 as <- _.
      change H3_SOURCES with (removelast H3_SOURCES ++ [62]) in HH.
      apply app_inj_tail in HH as [_ HH]. discriminate.
    + simpl in Hl2. injection Hl2 as <- <- _.
      exact (heading_no_inner c a0 l3 HH).
  - destruct (window_before W OL_OPEN l2 (104 :: l) 60 HWO (isspace_not_lt W HW)) as [z ->].
    rewrite <- app_assoc in HWO. apply app_inv_head in HWO.
    exact (ol_no_heading z l HWO).
Qed.

Lemma sources_head_cut (a y : str) (w : nat) :
  a <> [] -> sources_head (a ++ H3_SOURCES ++ y) = Some w -> sources_head a = Some w.
Proof.
  intros Ha H. apply sources_head_window in H as (W & r & Heq & HW & ->).
  symmetry in Heq. destruct (head_window_cut W r a y HW Ha Heq) as [z ->].
  apply sources_head_window. eauto.
Qed.

Lemma find_first_str_in (p s : str) : find_first p s = None <-> str_in p s = false.
Proof.
  induction s as [|c s IH]; cbn [find_first str_in].
  - destruct (starts_with p []); split; intros; try discriminate; reflexivity.
  - destruct (starts_with p (c :: s)); cbn [orb].
    + split; discriminate.
    + rewrite <- IH. destruct (find_first p s); split; intros; try discriminate; reflexivity.
Qed.

Lemma str_in_app_r (p a b : str) : str_in p b = true -> str_in p (a ++ b) = true.
Proof.
  rewrite !str_in_spec. intros (x & y & ->). exists (a ++ x), y.
  rewrite <- app_assoc. reflexivity.
Qed.

Lemma str_in_drop (p s : str) (k : nat) : str_in p (drop k s) = true -> str_in p s = true.
Proof. intros H. rewrite <- (take_drop k s). apply str_in_app_r. exact H. Qed.

Lemma matches_sources_true (s : str) :
  matches sources_re s = true <->
  exists w, sources_head s = Some w /\ str_in OL_CLOSE (drop w s) = true.
Proof.
  unfold matches. rewrite bool_decide_eq_true, match_sources. split.
  - intros [v Hv]. destruct (sources_head s) as [w|]; [|discriminate].
    exists w. split; [reflexivity|].
    destruct (str_in OL_CLOSE (drop w s)) eqn:E; [reflexivity|].
    apply find_first_str_in in E. rewrite E in Hv. discriminate.
  - intros (w & -> & Hin).
    destruct (find_first OL_CLOSE (drop w s)) as [i|] eqn:E; [eauto|].
    apply find_first_str_in in E. congruence.
Qed.

Lemma not_found_inside (t : str) :
  nowhere (matches sources_re) t -> nowhere (matches sources_re) (NOT_FOUND ++ t).
Proof.
  intros Ht. unfold NOT_FOUND. cbn [app].
  repeat (apply nowhere_cons; split; [reflexivity|]). exact Ht.
Qed.

(** No Sources section is left after the substitution. *)
Lemma not_found_leaves_none (s : str) : nowhere (matches sources_re) (not_found s).
Proof.
  apply (sub_with_ind sources_re (fun _ => NOT_FOUND)
           (fun _ out => nowhere (matches sources_re) out)).
  - apply nowhere_nil. reflexivity.
  - intros c r Hm IH. apply nowhere_cons. split; [|exact IH].
    destruct (sub_agrees sources_re NOT_FOUND H3_SOURCES sources_starts eq_refl r)
      as [->|(u & y & y' & -> & -> & Hy)]; [apply matches_false, Hm|].
    apply not_true_is_false. intros Ht.
    apply matches_sources_true in Ht as (w & Hw & _).
    apply (sources_head_cut (c :: u) y' w ltac:(discriminate)) in Hw.
    destruct (sources_head_ext (c :: u) (H3_SOURCES ++ y) w Hw) as [Hw' Hlen].
    apply matches_false in Hm. apply not_true_iff_false in Hm. apply Hm.
    apply matches_sources_true. exists w. split; [exact Hw'|].
    change (c :: u ++ H3_SOURCES ++ y) with ((c :: u) ++ H3_SOURCES ++ y).
    rewrite drop_app_le by exact Hlen. apply str_in_app_r.
    assert (Hmy : matches sources_re (H3_SOURCES ++ y) = true).
    { unfold matches. apply bool_decide_eq_true.
      destruct (match_pieces sources_re (H3_SOURCES ++ y)); [eauto|contradiction]. }
    apply matches_sources_true in Hmy as (w' & _ & Hin).
    eapply str_in_drop. exact Hin.
  - intros c r n g _ IH. apply not_found_inside. exact IH.
Qed.

Lemma search_some (ps : list piece) (s : str) :
  search ps s <> None <-> exists pre post, s = pre ++ post /\ matches ps post = true.
Proof.
  split.
  - induction s as [|c s IH]; cbn [search]; intros H.
    + exists [], []. split; [reflexivity|]. unfold matches. apply bool_decide_eq_true.
      destruct (match_pieces ps []) as [[n g]|]; [eauto|contradiction].
    + destruct (match_pieces ps (c :: s)) as [[n g]|] eqn:E.
      * exists [], (c :: s). split; [reflexivity|]. unfold matches.
        apply bool_decide_eq_true. rewrite E. eauto.
      * destruct (IH H) as (pre & post & -> & Hm). exists (c :: pre), post. auto.
  - intros (pre & post & -> & Hm) Hnone.
    apply search_none in Hnone. rewrite (Hnone pre post eq_refl) in Hm. discriminate.
Qed.

(** A Sources section: heading, whitespace, [<ol>], and a closing
    [</ol>] further on. *)
Lemma search_sources_some (s : str) :
  search sources_re s <> None <->
  exists pre W X rest,
    s = pre ++ (H3_SOURCES ++ W ++ OL_OPEN) ++ X ++ OL_CLOSE ++ rest /\
    forallb isspace W = true.
Proof.
  rewrite search_some. split.
  - intros (pre & post & -> & Hm).
    apply matches_sources_true in Hm as (w & Hw & Hin).
    apply sources_head_window in Hw as (W & r & -> & HW & ->).
    rewrite drop_app_length in Hin. apply str_in_spec in Hin as (X & rest & ->).
    exists pre, W, X, rest. auto.
  - intros (pre & W & X & rest & -> & HW). eexists pre, _. split; [reflexivity|].
    apply matches_sources_true. exists (length (H3_SOURCES ++ W ++ OL_OPEN)). split.
    + apply sources_head_window. eauto.
    + rewrite drop_app_length. apply str_in_spec. eauto.
Qed.

(** A substitution that leaves the heading with its [<ol>] and the
    closing [</ol>] in place leaves a Sources section. *)
Lemma sources_survive (ps : list piece) (repl : str -> str) :
  (forall W u t, forallb isspace W = true ->
     exists u', sub_with ps repl (u ++ (H3_SOURCES ++ W ++ OL_OPEN) ++ t)
                = u' ++ (H3_SOURCES ++ W ++ OL_OPEN) ++ sub_with ps repl t) ->
  (forall u t, exists u', sub_with ps repl (u ++ OL_CLOSE ++ t)
                          = u' ++ OL_CLOSE ++ sub_with ps repl t) ->
  forall s, search sources_re s <> None -> search sources_re (sub_with ps repl s) <> None.
Proof.
  intros HA HC s Hs.
  apply search_sources_some in Hs as (pre & W & X & rest & -> & HW).
  destruct (HA W pre (X ++ OL_CLOSE ++ rest) HW) as [pre' ->].
  destruct (HC X rest) as [X' ->].
  apply search_sources_some. exists pre', W, X', (sub_with ps repl rest). auto.
Qed.

Lemma marker_cross (c : N) (u a t : str) (n : nat) (g : str) :
  match_pieces marker_re (c :: u ++ (60 :: a) ++ t) = Some (n, g) ->
  (n <= S (length u))%nat.
Proof.
  intros H.
  eapply (match_lcl_barrier [91] isdecimal 1 93 [] eq_refl 91 [] 60 c u (a ++ t) []).
  - reflexivity.
  - intros E. inversion E.
  - reflexivity.
  - intros E. elem_of_literal E.
  - exact H.
Qed.

Lemma strip_markers_sync (a u t : str) :
  91 ∉ 60 :: a ->
  exists u', strip_markers (u ++ (60 :: a) ++ t) = u' ++ (60 :: a) ++ strip_markers t.
Proof.
  intros Ha. apply sub_sync.
  - intros a1 a2 t' Heq Hne. destruct a2 as [|x a2]; [contradiction|].
    simpl. apply marker_head. intros ->. apply Ha. rewrite Heq.
    apply elem_of_app. right. left.
  - intros c u0 t' n g. apply marker_cross.
Qed.

Lemma heading_chars (W : str) (p : N) :
  forallb isspace W = true -> isspace p = false ->
  p ∉ H3_SOURCES -> p ∉ OL_OPEN -> p ∉ H3_SOURCES ++ W ++ OL_OPEN.
Proof.
  intros HW Hp H1 H2. rewrite !elem_of_app. intros [H|[H|H]]; try contradiction.
  apply list_elem_of_In in H. rewrite forallb_forall in HW.
  rewrite (HW _ H) in Hp. discriminate.
Qed.

(** Removing markers leaves a Sources section where there was one. *)
Lemma strip_markers_keeps_sources (s : str) :
  search sources_re s <> None -> search sources_re (strip_markers s) <> None.
Proof.
  apply sources_survive.
  - intros W u t HW.
    apply (strip_markers_sync (tail H3_SOURCES ++ W ++ OL_OPEN) u t).
    apply (heading_chars W 91 HW eq_refl); intros H; vm_compute in H; elem_of_literal H.
  - intros u t. apply (strip_markers_sync (tail OL_CLOSE) u t).
    intros H. vm_compute in H. elem_of_literal H.
Qed.

(** A confidence marker ends before an anchor [a1 ++ p :: _] that it
    cannot run into. *)
Lemma conf_cross (c : N) (u a1 : str) (p : N) (t : str) (n : nat) (g : str) :
  p ∉ CONF_HEAD -> isdecimal p = false -> p ∉ CONF_TAIL -> 62 ∉ a1 ->
  match_pieces conf_re (c :: u ++ (a1 ++ p :: t)) = Some (n, g) ->
  (n <= S (length u))%nat.
Proof.
  intros H1 H2 H3 Ha H.
  destruct (match_lcl_window CONF_HEAD isdecimal 1 47 (tail CONF_TAIL) eq_refl _ _ _ H)
    as (D & r & Heq & HD & _ & -> & _).
  change (47 :: tail CONF_TAIL) with (removelast CONF_TAIL ++ [62]) in *.
  assert (Heq' : ((CONF_HEAD ++ D ++ removelast CONF_TAIL) ++ [62]) ++ r
                 = (c :: u) ++ a1 ++ p :: t).
  { change ((c :: u) ++ a1 ++ p :: t) with (c :: u ++ a1 ++ p :: t).
    rewrite Heq, <- !app_assoc. reflexivity. }
  apply window_cut in Heq' as [z Hz]; [| |exact Ha].
  - rewrite <- !app_assoc in Hz.
    change (S (length u)) with (length (c :: u)). rewrite Hz.
    rewrite !length_app. simpl. lia.
  - rewrite !elem_of_app. intros [[H0|[H0|H0]]|H0]; try contradiction.
    + apply list_elem_of_In in H0. rewrite forallb_forall in HD.
      rewrite (HD _ H0) in H2. discriminate.
    + apply H3. change CONF_TAIL with (removelast CONF_TAIL ++ [62]).
      apply elem_of_app. left. exact H0.
    + apply H3. change CONF_TAIL with (removelast CONF_TAIL ++ [62]).
      apply elem_of_app. right. exact H0.
Qed.

Lemma zero_conf_sync (a1 : str) (p : N) (a2 u t : str) :
  1058 ∉ a1 ++ p :: a2 ->
  p ∉ CONF_HEAD -> isdecimal p = false -> p ∉ CONF_TAIL -> 62 ∉ a1 ->
  exists u', zero_conf (u ++ (a1 ++ p :: a2) ++ t)
             = u' ++ (a1 ++ p :: a2) ++ zero_conf t.
Proof.
  intros Ha H1 H2 H3 H4. apply sub_sync.
  - intros b1 b2 t' Heq Hne. destruct b2 as [|x b2]; [contradiction|].
    simpl. apply conf_head. intros ->. apply Ha. rewrite Heq.
    apply elem_of_app. right. left.
  - intros c u0 t' n g Hm. rewrite <- !app_assoc in Hm.
    exact (conf_cross c u0 a1 p (a2 ++ t') n g H1 H2 H3 H4 Hm).
Qed.

(** Zeroing the confidence leaves a Sources section where there was one. *)
Lemma zero_conf_keeps_sources (s : str) :
  search sources_re s <> None -> search sources_re (zero_conf s) <> None.
Proof.
  apply sources_survive.
  - intros W u t HW.
    apply (zero_conf_sync [60] 104 (drop 2 H3_SOURCES ++ W ++ OL_OPEN) u t).
    + apply (heading_chars W 1058 HW eq_refl); intros H; vm_compute in H; elem_of_literal H.
    + intros H; vm_compute in H; elem_of_literal H.
    + reflexivity.
    + intros H; vm_compute in H; elem_of_literal H.
    + intros H; elem_of_literal H.
  - intros u t. apply (zero_conf_sync [60; 47] 111 (drop 3 OL_CLOSE) u t).
    + intros H; vm_compute in H; elem_of_literal H.
    + intros H; vm_compute in H; elem_of_literal H.
    + reflexivity.
    + intros H; vm_compute in H; elem_of_literal H.
    + intros H; elem_of_literal H.
Qed.

(** Where there is a Sources section the "not found" marker is put. *)
Lemma not_found_is_put (s : str) :
  search sources_re s <> None -> str_in NOT_FOUND (not_found s) = true.
Proof.
  apply (sub_with_ind sources_re (fun _ => NOT_FOUND)
           (fun s out => search sources_re s <> None -> str_in NOT_FOUND out = true)).
  - intros H. exfalso. apply H. reflexivity.
  - intros c r Hm IH H. cbn [search] in H. rewrite Hm in H.
    apply (str_in_app_r NOT_FOUND [c]). exact (IH H).
  - intros c r n g _ _ _. apply str_in_spec. exists []. eauto.
Qed.

Lemma str_eqb_eq (a b : str) : str_eqb a b = true <-> a = b.
Proof.
  revert b. induction a as [|x a IH]; intros [|y b]; simpl; split; try discriminate; auto.
  - rewrite andb_true_iff, N.eqb_eq, IH. intros [-> ->]. reflexivity.
  - intros H. injection H as -> ->. rewrite N.eqb_refl. apply IH. reflexivity.
Qed.

(** Zeroing confidence markers that all read 0/10 changes nothing. *)
Lemma zero_conf_fixed (s : str) : confidence_reads_zero s -> zero_conf s = s.
Proof.
  unfold confidence_reads_zero.
  apply (sub_with_ind conf_re (fun _ => CONF_ZERO)
           (fun s out => nowhere nonzero_conf s -> out = s)).
  - reflexivity.
  - intros c r _ IH H. apply nowhere_cons in H as [_ H]. rewrite IH by exact H. reflexivity.
  - intros c r n g Hm IH H. apply nowhere_cons in H as [H0 H].
    unfold nonzero_conf in H0. rewrite Hm in H0.
    apply negb_false_iff, str_eqb_eq in H0.
    rewrite IH by (apply nowhere_drop; exact H).
    rewrite <- H0. destruct n as [|n]; [discriminate H0|].
    simpl. rewrite take_drop. reflexivity.
Qed.

(** What an invalidating branch returns. *)
Lemma invalidate_guarantees (s : str) :
  exists out,
    invalidate s = Some out /\
    (search nested_re s = None -> search marker_re out = None) /\
    confidence_reads_zero out /\
    search sources_re out = None /\
    (search sources_re s <> None -> str_in NOT_FOUND out = true).
Proof.
  eexists. split; [apply invalidate_eq|]. repeat split.
  - intros Hn. apply search_none. apply search_none in Hn.
    apply not_found_keeps_clean, zero_conf_keeps_clean, strip_markers_clean. exact Hn.
  - apply not_found_keeps_zero, zero_conf_reads_zero.
  - apply search_none, not_found_leaves_none.
  - intros Hs. apply not_found_is_put, zero_conf_keeps_sources, strip_markers_keeps_sources.
    exact Hs.
Qed.

(** The claim C1 fails on the code: with the document found and the link
    index empty, neither list item is kept; the Sources section is
    replaced by the "not found" marker. *)
Lemma unlinked_match_invalidates :
  exists out,
    process_sources answer_example [DOC_PATH] ∅ = Some out /\
    label_matches (lit "1.docx") DOC_PATH = true /\
    str_in (lit "<li>1.docx</li>") out = false /\
    str_in (lit "<li>2.pdf</li>") out = false /\
    str_in NOT_FOUND out = true.
Proof. eexists. repeat split; vm_compute; reflexivity. Qed.

(** C1 (amended): a label counts as a valid citation only when a path it
    matches is a key of the link index.  With an empty link index every
    answer is invalidated; for the example answer and the path
    folder/1.docx this strips the markers, zeroes the confidence and
    puts the "not found" marker in place of the list, and with a link for
    that path the output links 1.docx and keeps 2.pdf as a plain item. *)
Theorem match_needs_link :
  (forall response_text actual_docs,
      process_sources response_text actual_docs ∅ = invalidate response_text) /\
  process_sources answer_example [DOC_PATH] ∅ = Some answer_example_invalidated /\
  process_sources answer_example [DOC_PATH] {[DOC_PATH := DOC_LINK]}
  = Some answer_example_linked /\
  str_in (lit "<li>2.pdf</li>") answer_example_linked = true.
Proof.
  split; [|repeat split; vm_compute; reflexivity].
  intros response_text actual_docs. apply process_sources_invalidates.
  intros label _. apply find_link_no_links.
Qed.

(** The claim C5 fails on the code: a second run wraps the linked item in
    a second anchor. *)
Lemma second_run_wraps_again :
  exists out1 out2,
    process_sources answer_example [DOC_PATH] {[DOC_PATH := DOC_LINK]} = Some out1 /\
    process_sources out1 [DOC_PATH] {[DOC_PATH := DOC_LINK]} = Some out2 /\
    out2 <> out1.
Proof.
  eexists. eexists. split; [vm_compute; reflexivity|].
  split; [vm_compute; reflexivity|]. discriminate.
Qed.

(** The claim C7 fails on the code: no label matches a document, yet a
    bracket-numbered marker is left, the one that the removal of a
    nested marker forms. *)
Lemma nested_marker_survives :
  exists out,
    no_label_matches answer_nested [] /\
    search sources_re answer_nested <> None /\
    search conf_re answer_nested <> None /\
    process_sources answer_nested [] ∅ = Some out /\
    search marker_re out <> None.
Proof.
  destruct (process_sources answer_nested [] ∅) as [out|] eqn:E;
    [|vm_compute in E; discriminate].
  exists out. vm_compute in E. injection E as <-.
  split; [intros label path _ H; inversion H|].
  repeat split; vm_compute; discriminate.
Qed.

(** C7 (amended): when no candidate label matches an actual document
    path, the validator returns an output in which every confidence
    marker reads 0/10 and no Sources list is left; the "not found" marker
    stands in it when the answer had a Sources section; and it holds no
    bracket-numbered marker, provided that in the answer no bracket opens
    inside a bracket that is still open (one pass over "[[1]2]" leaves
    "[2]"). *)
Theorem unsupported_answer_is_invalidated (response_text : str)
    (actual_docs : list str) (links_dict : gmap str str) :
  no_label_matches response_text actual_docs ->
  exists out,
    process_sources response_text actual_docs links_dict = Some out /\
    (search nested_re response_text = None -> search marker_re out = None) /\
    confidence_reads_zero out /\
    search sources_re out = None /\
    (search sources_re response_text <> None -> str_in NOT_FOUND out = true).
Proof.
  intros Hno.
  rewrite (process_sources_invalidates response_text actual_docs links_dict)
    by (apply no_label_matches_linked; exact Hno).
  apply invalidate_guarantees.
Qed.

Lemma unsupported_answer_is_invalidated_witness :
  exists out,
    process_sources answer_example [OTHER_PATH] {[OTHER_PATH := DOC_LINK]} = Some out /\
    (search nested_re answer_example = None -> search marker_re out = None) /\
    confidence_reads_zero out /\
    search sources_re out = None /\
    (search sources_re answer_example <> None -> str_in NOT_FOUND out = true).
Proof.
  apply (unsupported_answer_is_invalidated answer_example [OTHER_PATH]
           {[OTHER_PATH := DOC_LINK]}).
  intros label path Hl Hp. vm_compute in Hl.
  apply list_elem_of_singleton in Hp. subst path.
  apply elem_of_cons in Hl as [->|Hl]; [reflexivity|].
  apply list_elem_of_singleton in Hl. subst label. reflexivity.
Defined.

(** C5 (amended): the validator is idempotent on the answers it
    invalidates, when no bracket of the answer opens inside a bracket
    that is still open: if no candidate label resolves to a link, a
    second run on the output returns the output. *)
Theorem invalidation_is_idempotent (response_text : str) (actual_docs : list str)
    (links_dict : gmap str str) (out : str) :
  no_label_linked response_text actual_docs links_dict ->
  search nested_re response_text = None ->
  process_sources response_text actual_docs links_dict = Some out ->
  process_sources out actual_docs links_dict = Some out.
Proof.
  intros Hno Hnest Hout.
  rewrite (process_sources_invalidates _ _ _ Hno) in Hout.
  destruct (invalidate_guarantees response_text) as (out' & E & Hm & Hc & Hs & _).
  rewrite E in Hout. injection Hout as ->.
  unfold process_sources. rewrite Hs, invalidate_eq.
  rewrite (sub_with_nowhere marker_re _ out (Hm Hnest)).
  rewrite (zero_conf_fixed out Hc).
  rewrite (sub_with_nowhere sources_re _ out Hs). reflexivity.
Qed.

Lemma invalidation_is_idempotent_witness :
  process_sources answer_example_invalidated [DOC_PATH] ∅ = Some answer_example_invalidated.
Proof.
  apply (invalidation_is_idempotent answer_example [DOC_PATH] ∅).
  - intros label _. apply find_link_no_links.
  - reflexivity.
  - reflexivity.
Defined.

End SourcesFacts.

(** * Further properties of text normalization *)

Module NormalizeShape.
Import PyStr Re Templates StrFacts ReFacts NormalizeFacts.

Local Abbreviation collapse := (sub_with ws_re (fun _ => [32])).

Lemma ws_normal_spaces (s : str) (c : N) :
  ws_normal s = true -> c ∈ s -> isspace c = true -> c = 32.
Proof.
  induction s as [|x s IH]; intros Hn Hc Hs; [inversion Hc|].
  cbn [ws_normal] in Hn. apply andb_true_iff in Hn as [Hx Hn].
  apply elem_of_cons in Hc as [->|Hc]; [|exact (IH Hn Hc Hs)].
  rewrite Hs in Hx. apply andb_true_iff in Hx as [Hx _]. apply N.eqb_eq. exact Hx.
Qed.

Lemma rstrip_last (s r : str) (c : N) : rstrip s = r ++ [c] -> isspace c = false.
Proof.
  unfold rstrip. intros H.
  assert (E : lstrip (rev s) = c :: rev r).
  { rewrite <- (rev_involutive (lstrip (rev s))), H, rev_app_distr. reflexivity. }
  exact (lstrip_head _ _ _ E).
Qed.

Lemma strip_head (s r : str) (c : N) : strip s = c :: r -> isspace c = false.
Proof.
  unfold strip. intros E. destruct (rstrip_prefix (lstrip s)) as [k Hk]. rewrite Hk in E.
  destruct (lstrip s) as [|c' r'] eqn:El; destruct k; try discriminate.
  simpl in E. injection E as <- _. exact (lstrip_head _ _ _ El).
Qed.

Lemma normalize_text_chars (t : str) :
  (44 ∉ normalize_text t) /\ (8230 ∉ normalize_text t).
Proof.
  rewrite normalize_text_unfold. split.
  - intros H. apply strip_elem, replace_char_elem in H as [H|[_ H]]; [inversion H|congruence].
  - intros H. apply strip_elem, replace_char_elem in H as [H|[H _]]; [inversion H|].
    apply collapse_elem in H as [H|H]; [|discriminate].
    apply replace_char_elem in H as [H|[_ H]]; [elem_of_literal H|congruence].
Qed.

(** The normalized text has no comma and no ellipsis character, its only
    whitespace is the space, and it neither starts nor ends with
    whitespace. *)
Theorem normalize_text_shape (t : str) :
  (44 ∉ normalize_text t) /\ (8230 ∉ normalize_text t) /\
  (forall c, c ∈ normalize_text t -> isspace c = true -> c = 32) /\
  (forall c r, normalize_text t = c :: r -> isspace c = false) /\
  (forall r c, normalize_text t = r ++ [c] -> isspace c = false).
Proof.
  destruct (normalize_text_chars t) as [Hc He].
  split; [exact Hc|]. split; [exact He|].
  rewrite normalize_text_unfold.
  set (t1 := replace_char 8230 [46; 46; 46] t).
  repeat split.
  - intros c H Hs. apply strip_elem, replace_char_elem in H as [H|[H _]]; [inversion H|].
    exact (ws_normal_spaces _ c (collapse_ws_normal t1) H Hs).
  - intros c r. apply strip_head.
  - intros r c. unfold strip. apply rstrip_last.
Qed.

Lemma normalize_text_fixed (u : str) :
  44 ∉ u -> 8230 ∉ u -> ws_normal u = true -> strip u = u -> normalize_text u = u.
Proof.
  intros Hc He Hn Hs. rewrite normalize_text_unfold.
  rewrite (replace_char_absent 8230 _ u He), (collapse_fixed u Hn),
    (replace_char_absent 44 [] u Hc). exact Hs.
Qed.

(** A second pass may still change the text, a third never does. *)
Theorem normalize_text_settles (t : str) :
  normalize_text (normalize_text (normalize_text t)) = normalize_text (normalize_text t).
Proof.
  destruct (normalize_text_chars t) as [Hc He].
  set (v := normalize_text t) in *.
  assert (E : normalize_text v = strip (collapse v)).
  { rewrite normalize_text_unfold, (replace_char_absent 8230 _ v He).
    rewrite (replace_char_absent 44 [] (collapse v)); [reflexivity|].
    intros H. apply collapse_elem in H as [H|H]; [contradiction|discriminate]. }
  apply normalize_text_fixed.
  - apply (normalize_text_chars v).
  - apply (normalize_text_chars v).
  - rewrite E. apply strip_ws_normal, collapse_ws_normal.
  - rewrite E. apply strip_idem.
Qed.

End NormalizeShape.

(** * Further properties of the template matcher *)

Module MatcherMore.
Import PyStr Re Templates StrFacts TemplateFacts.

Section Scoring.

Variable lower : str -> str.
Variable nq : str.

Local Abbreviation found := (fun pattern : str => str_in (lower pattern) nq = true).


Lemma main_match_count_all (patterns : list str) :
  main_match_count lower nq patterns = length patterns <-> Forall found patterns.
Proof.
  unfold main_match_count. induction patterns as [|p ps IH].
  - split; [constructor|reflexivity].
  - rewrite filter_cons. destruct (decide (Is_true (str_in (lower p) nq))) as [Hp|Hp].
    + simpl. rewrite Forall_cons. apply Is_true_true in Hp.
      split.
      * intros H. split; [exact Hp|]. apply IH. lia.
      * intros [_ H]. f_equal. apply IH. exact H.
    + split.
      * intros H. pose proof (length_filter (fun x => Is_true (str_in (lower x) nq)) ps).
        simpl in H. lia.
      * intros H. apply Forall_cons in H as [H _]. exfalso. apply Hp, Is_true_true, H.
Qed.

Lemma alt_match_some (groups : list (list str)) :
  alt_match lower nq groups = true <-> Exists (Forall found) groups.
Proof.
  unfold alt_match. rewrite existsb_exists, Exists_exists. split.
  - intros (g & Hin & Hg). exists g. split; [apply list_elem_of_In, Hin|].
    apply Forall_forall. intros alt Halt. rewrite forallb_forall in Hg.
    apply Hg, list_elem_of_In, Halt.
  - intros (g & Hin & Hg). exists g. split; [apply list_elem_of_In, Hin|].
    apply forallb_forall. intros alt Halt. rewrite Forall_forall in Hg.
    apply Hg, list_elem_of_In, Halt.
Qed.

(** A template matches exactly when every one of its patterns is found
    in the normalized query, or every string of one of its alternative
    groups is; neither condition looks at the other. *)
Theorem is_match_iff (t : template) :
  is_match lower nq t = true <->
  Forall found (t_patterns t) \/ Exists (Forall found) (t_alternative_patterns t).
Proof.
  unfold is_match. rewrite orb_true_iff, Nat.eqb_eq, main_match_count_all, alt_match_some.
  reflexivity.
Qed.




End Scoring.

(** What [find_matching_template] returns is built from a template of the
    registry that matches the query; its score is positive and no
    matched template of the registry scores more. *)
Theorem find_matching_template_sound (lower : str -> str) (registry : list template)
    (query context : str) (r : match_result) :
  find_matching_template lower registry query context = Some r ->
  let nq := lower (normalize_text query) in
  exists t,
    t ∈ registry /\ is_match lower nq t = true /\
    r_id r = t_id t /\ r_description r = t_description t /\
    r_action r = t_action t /\ r_msg_file r = t_msg_file t /\
    r_msg_filename r = t_msg_file t /\ r_priority r = priority_of t /\
    r_comment r = t_comment t /\
    r_score r = score lower nq t /\ (0 < r_score r)%Q /\
    forall t', t' ∈ registry -> is_match lower nq t' = true ->
               (score lower nq t' <= r_score r)%Q.
Proof.
  intros H nq. unfold find_matching_template in H.
  destruct (find_best_spec lower registry query context)
    as [[Hr _]|(j & t & Hr & Hj & Hm & Hpos & Hmax)]; rewrite Hr in H.
  - discriminate.
  - injection H as <-. exists t. cbn.
    split; [eapply list_elem_of_lookup_2; exact Hj|].
    repeat (split; [first [reflexivity | assumption]|]).
    intros t' Hin Hm'. apply list_elem_of_lookup_1 in Hin as [j' Hj'].
    apply (Hmax j' t' Hj' Hm').
Qed.

Lemma find_matching_template_sound_witness :
  exists t,
    t ∈ [duplicate_po_template; duplicate_po_twin] /\
    r_id <$> find_matching_template lower_basic
               [duplicate_po_template; duplicate_po_twin] query_duplicate_po []
    = Some (t_id t).
Proof.
  destruct (find_matching_template lower_basic
              [duplicate_po_template; duplicate_po_twin] query_duplicate_po [])
    as [r|] eqn:E; [|vm_compute in E; discriminate].
  destruct (find_matching_template_sound lower_basic _ _ _ r E)
    as (t & Hin & _ & Hid & _).
  exists t. split; [exact Hin|]. simpl. rewrite Hid. reflexivity.
Defined.

(** The matcher returns nothing when no template of the registry matches
    the query, and so on an empty registry. *)
Theorem no_match_returns_none (lower : str -> str) (registry : list template)
    (query context : str) :
  (forall t, t ∈ registry -> is_match lower (lower (normalize_text query)) t = false) ->
  find_matching_template lower registry query context = None.
Proof. apply find_matching_template_no_match. Qed.

Lemma no_match_returns_none_witness :
  find_matching_template lower_basic [duplicate_po_template] query_gln [] = None.
Proof.
  apply no_match_returns_none. intros t Ht.
  apply list_elem_of_singleton in Ht. subst t. reflexivity.
Defined.



End MatcherMore.

(** * Further properties of the registry *)

Module RegistryMore.
Import PyStr Re Templates Letters StrFacts TemplateFacts SourcesFacts.

(** Loading keeps every template of the file, and keeps the order of the
    file among templates of one priority; the file's actions are taken
    as they are. *)
Theorem load_config_keeps_templates (self : manager) (file : option config_data)
    (m : manager) :
  load_config self file = Some m ->
  exists data,
    file = Some data /\
    templates m ≡ₚ default [] (d_templates data) /\
    (forall p : Z,
        List.filter (fun u => Z.eqb (priority_of u) p) (templates m)
        = List.filter (fun u => Z.eqb (priority_of u) p) (default [] (d_templates data))) /\
    actions m = default ∅ (d_actions data) /\
    config_path m = config_path self.
Proof.
  unfold load_config. destruct file as [data|]; [|discriminate].
  simpl. intros H. injection H as <-. exists data. simpl. repeat split.
  - apply sort_by_priority_perm.
  - intros p. apply sort_by_priority_stable.
Qed.

Lemma load_config_keeps_templates_witness :
  exists m data,
    init [] (Some two_template_file) = Some m /\
    Some two_template_file = Some data /\
    templates m ≡ₚ default [] (d_templates data).
Proof.
  destruct (init [] (Some two_template_file)) as [m|] eqn:E; [|discriminate E].
  destruct (load_config_keeps_templates _ _ m E) as (data & Hd & Hp & _).
  exists m, data. auto.
Defined.

Lemma existsb_id (l : list template) (template_id : str) :
  existsb (fun t => str_eqb (t_id t) template_id) l = true <-> template_id ∈ map t_id l.
Proof.
  rewrite existsb_exists, list_elem_of_In, in_map_iff. split.
  - intros (t & Hin & Heq). apply str_eqb_eq in Heq. eauto.
  - intros (t & Heq & Hin). exists t. split; [exact Hin|]. apply str_eqb_eq. exact Heq.
Qed.

(** [add_template] refuses an id that the registry already has: it
    returns [False] and changes neither the registry nor the file. *)
Theorem add_template_duplicate (self : manager) (file : option config_data)
    (disk_ok : bool) (template_id name description : str) (patterns : list str)
    (action msg_file : str) (priority : Z) (comment : str) :
  template_id ∈ ids self ->
  add_template self file disk_ok template_id name description patterns action
    msg_file priority comment
  = (self, file, false).
Proof.
  intros Hin. unfold add_template. apply existsb_id in Hin. rewrite Hin. reflexivity.
Qed.

Lemma add_template_duplicate_witness :
  add_template LetterMode.example_manager None true (lit "dup") [] [] [] [] [] 10 []
  = (LetterMode.example_manager, None, false).
Proof. apply add_template_duplicate. left. Defined.

(** The template that [add_template] builds. *)
Local Abbreviation built template_id name description patterns action msg_file priority comment :=
  {| t_id := template_id; t_name := name; t_description := description;
     t_patterns := patterns; t_alternative_patterns := [];
     t_action := action; t_msg_file := msg_file;
     t_priority := Some priority; t_comment := comment |}.



End RegistryMore.

(** * Lookup by id, and saving *)

Module LookupFacts.
Import PyStr Re Templates Letters StrFacts TemplateFacts SourcesFacts RegistryMore.

Lemma first_with_id_some (l : list template) (template_id : str) (t : template) :
  first_with_id l template_id = Some t -> t ∈ l /\ t_id t = template_id.
Proof.
  induction l as [|u l IH]; simpl; [discriminate|].
  destruct (str_eqb (t_id u) template_id) eqn:E.
  - intros H. injection H as <-. apply str_eqb_eq in E. split; [left|exact E].
  - intros H. destruct (IH H) as [Hin Hid]. split; [right; exact Hin|exact Hid].
Qed.

Lemma first_with_id_none (l : list template) (template_id : str) :
  first_with_id l template_id = None <-> template_id ∉ map t_id l.
Proof.
  induction l as [|u l IH]; simpl.
  - split; [intros _ H; inversion H|reflexivity].
  - destruct (str_eqb (t_id u) template_id) eqn:E.
    + apply str_eqb_eq in E. split; [discriminate|]. intros H. exfalso. apply H. rewrite E. left.
    + rewrite IH, not_elem_of_cons. split; [|tauto]. intros H. split; [|exact H].
      intros Heq. rewrite Heq in E.
      assert (E' : str_eqb (t_id u) (t_id u) = true) by (apply str_eqb_eq; reflexivity).
      congruence.
Qed.

(** Where ids are distinct the lookup finds the one template of that id. *)
Lemma first_with_id_unique (l : list template) (t : template) :
  NoDup (map t_id l) -> t ∈ l -> first_with_id l (t_id t) = Some t.
Proof.
  induction l as [|u l IH]; intros Hnd Hin; [inversion Hin|].
  simpl in Hnd. apply NoDup_cons in Hnd as [Hu Hnd]. simpl.
  destruct (str_eqb (t_id u) (t_id t)) eqn:E.
  - apply str_eqb_eq in E. apply elem_of_cons in Hin as [->|Hin]; [reflexivity|].
    exfalso. apply Hu. rewrite E. apply list_elem_of_In, in_map, list_elem_of_In, Hin.
  - apply elem_of_cons in Hin as [->|Hin]; [|exact (IH Hnd Hin)].
    assert (E' : str_eqb (t_id u) (t_id u) = true) by (apply str_eqb_eq; reflexivity).
    congruence.
Qed.

(** [get_template_by_id] returns a template of the registry with the id
    asked for, and [None] exactly when no template has it. *)
Theorem get_template_by_id_spec (self : manager) (template_id : str) :
  (forall t, get_template_by_id self template_id = Some t ->
             t ∈ list_templates self /\ t_id t = template_id) /\
  (get_template_by_id self template_id = None <-> template_id ∉ ids self).
Proof.
  split.
  - intros t. apply first_with_id_some.
  - apply first_with_id_none.
Qed.

Lemma first_with_id_permutation (l l' : list template) (template_id : str) :
  l ≡ₚ l' -> NoDup (map t_id l) ->
  first_with_id l template_id = first_with_id l' template_id.
Proof.
  intros Hp Hnd.
  assert (Hnd' : NoDup (map t_id l')) by (rewrite <- Hp; exact Hnd).
  destruct (first_with_id l template_id) as [t|] eqn:E.
  - apply first_with_id_some in E as [Hin <-]. symmetry.
    apply first_with_id_unique; [exact Hnd'|]. rewrite <- Hp. exact Hin.
  - symmetry. apply first_with_id_none. apply first_with_id_none in E.
    rewrite <- Hp. exact E.
Qed.

(** After [add_template] with a fresh id, the lookup of that id gives
    the template just added, and the lookup of any other id is what it
    was, the ids of the registry being distinct. *)
Theorem add_then_get (self : manager) (file : option config_data)
    (disk_ok : bool) (template_id name description : str) (patterns : list str)
    (action msg_file : str) (priority : Z) (comment : str) :
  NoDup (ids self) -> template_id ∉ ids self ->
  let self' := (add_template self file disk_ok template_id name description patterns
                  action msg_file priority comment).1.1 in
  get_template_by_id self' template_id
  = Some {| t_id := template_id; t_name := name; t_description := description;
            t_patterns := patterns; t_alternative_patterns := [];
            t_action := action; t_msg_file := msg_file;
            t_priority := Some priority; t_comment := comment |} /\
  forall other, other <> template_id ->
    get_template_by_id self' other = get_template_by_id self other.
Proof.
  intros Hnd Hnew self'.
  set (new := {| t_id := template_id; t_name := name; t_description := description;
                 t_patterns := patterns; t_alternative_patterns := [];
                 t_action := action; t_msg_file := msg_file;
                 t_priority := Some priority; t_comment := comment |}).
  assert (Hts : templates self' = sort_by_priority (templates self ++ [new])).
  { subst self'. unfold add_template.
    destruct (existsb _ (templates self)) eqn:E.
    - exfalso. apply Hnew. apply existsb_id. exact E.
    - destruct disk_ok; reflexivity. }
  assert (Hnd' : NoDup (map t_id (templates self ++ [new]))).
  { rewrite map_app. apply NoDup_app. split; [exact Hnd|].
    split; [|apply NoDup_singleton].
    intros x Hx Hx'. apply list_elem_of_singleton in Hx'. subst x. contradiction. }
  assert (Hperm : templates self ++ [new] ≡ₚ templates self').
  { rewrite Hts. symmetry. apply sort_by_priority_perm. }
  unfold get_template_by_id. split.
  - rewrite <- (first_with_id_permutation _ _ template_id Hperm Hnd').
    apply (first_with_id_unique _ new Hnd'). apply elem_of_app. right. left.
  - intros other Hother.
    rewrite <- (first_with_id_permutation _ _ other Hperm Hnd').
    clear -Hother. induction (templates self) as [|u l IH]; simpl.
    + destruct (str_eqb template_id other) eqn:E; [|reflexivity].
      apply str_eqb_eq in E. congruence.
    + rewrite IH. reflexivity.
Qed.

Lemma add_then_get_witness :
  t_priority
    <$> get_template_by_id
          (add_template LetterMode.example_manager None false (lit "new") [] [] []
             [] [] 70 []).1.1 (lit "new")
  = Some (Some 70%Z).
Proof.
  destruct (add_then_get LetterMode.example_manager None false (lit "new") [] [] []
              [] [] 70 []) as [Hget _].
  - repeat constructor. intros H. inversion H.
  - intros H. elem_of_literal H.
  - rewrite Hget. reflexivity.
Defined.

(** *** Saving and reloading *)

Lemma sort_by_priority_sorted_id (l : list template) :
  sorted_desc l -> sort_by_priority l = l.
Proof.
  unfold sorted_desc. induction 1 as [|t l Hl IH Ht]; [reflexivity|].
  simpl. rewrite IH. destruct l as [|u l']; [reflexivity|].
  simpl. apply Forall_cons in Ht as [Hu _]. unfold priority_ge in Hu.
  destruct (priority_of t <? priority_of u)%Z eqn:E; [|reflexivity].
  apply Z.ltb_lt in E. lia.
Qed.

(** What every manager of a running process satisfies. *)
Lemma reachable_inv (m : manager) :
  reachable m ->
  sorted_desc (templates m) /\
  msg_folder m = default (lit "templates/errors") (config m !! lit "msg_folder").
Proof.
  induction 1 as [path file m Hinit|m file m' _ _ Hre
                 |m file ok id name desc pats act msg prio cmt _ IH].
  - split; [eapply load_config_sorted; exact Hinit|].
    unfold init, load_config in Hinit. destruct file; [|discriminate].
    simpl in Hinit. injection Hinit as <-. reflexivity.
  - split; [eapply load_config_sorted; exact Hre|].
    unfold reload_config, load_config in Hre. destruct file; [|discriminate].
    simpl in Hre. injection Hre as <-. reflexivity.
  - split; [apply add_template_sorted; apply IH|].
    destruct IH as [_ IH]. unfold add_template.
    destruct (existsb _ (templates m)); [exact IH|].
    destruct ok; exact IH.
Qed.

(** Saving the configuration and loading it again gives back the manager
    as it was. *)
Theorem save_then_reload (m : manager) :
  reachable m -> reload_config m (Some (saved_data m)) = Some m.
Proof.
  intros Hr. destruct (reachable_inv m Hr) as [Hs Hf].
  unfold reload_config, load_config, saved_data. simpl.
  rewrite (sort_by_priority_sorted_id _ Hs), <- Hf.
  destruct m. reflexivity.
Qed.

Lemma save_then_reload_witness :
  exists m,
    init (lit "templates/error_templates_config.json") (Some two_template_file) = Some m /\
    reload_config m (Some (saved_data m)) = Some m.
Proof.
  eexists. split; [reflexivity|].
  apply save_then_reload.
  apply (reach_init (lit "templates/error_templates_config.json") (Some two_template_file)).
  reflexivity.
Defined.

End LookupFacts.

(** * Properties of letter assembly *)

Module LetterFacts.
Import PyStr Re Templates Letters StrFacts.

Lemma or_default_nonempty (x : option str) (d : str) : d <> [] -> or_default x d <> [].
Proof. intros Hd. destruct x as [[|c s]|]; simpl; [exact Hd|discriminate|exact Hd]. Qed.

(** [prepare_letter_response] gives up, without raising, exactly when the
    template names no letter file, the file is not in the letter folder,
    or it cannot be read. *)
Theorem prepare_letter_response_none (path_exists : str -> bool)
    (read_msg : str -> option msg_content) (self : manager)
    (template_config : match_result) :
  let msg_path := path_join (msg_folder self) (r_msg_file template_config) in
  prepare_letter_response path_exists read_msg self template_config = None <->
  r_msg_file template_config = [] \/ path_exists msg_path = false \/
  read_msg msg_path = None.
Proof.
  intros msg_path. unfold prepare_letter_response. fold msg_path.
  destruct (r_msg_file template_config) as [|c f] eqn:Ef.
  - split; [left; reflexivity|reflexivity].
  - destruct (path_exists msg_path) eqn:Ee.
    + destruct (read_msg msg_path) as [msg|] eqn:Er.
      * split; [discriminate|]. intros [H|[H|H]]; discriminate.
      * split; [right; right; reflexivity|reflexivity].
    + split; [right; left; reflexivity|reflexivity].
Qed.

(** A letter that is assembled always has an addressee: a letter
    without one gets the fallback address.  It carries the id, the action
    and the description of the template, and for an action that the
    configuration does not list its action text is empty and the CSA is
    notified. *)
Theorem prepare_letter_response_fields (path_exists : str -> bool)
    (read_msg : str -> option msg_content) (self : manager)
    (template_config : match_result) (letter : letter_response) :
  prepare_letter_response path_exists read_msg self template_config = Some letter ->
  l_to letter <> [] /\
  (exists msg,
      read_msg (path_join (msg_folder self) (r_msg_file template_config)) = Some msg /\
      (msg_to msg = None \/ msg_to msg = Some [] -> l_to letter = FALLBACK_TO) /\
      (forall a, msg_to msg = Some a -> a <> [] -> l_to letter = a) /\
      l_response letter = default [] (msg_body msg)) /\
  l_template_id letter = r_id template_config /\
  l_action letter = r_action template_config /\
  l_template_description letter = r_description template_config /\
  (actions self !! r_action template_config = None ->
   l_action_text letter = [] /\ l_notify_csa letter = true).
Proof.
  unfold prepare_letter_response.
  destruct (r_msg_file template_config) as [|c f]; [discriminate|].
  destruct (path_exists _); [|discriminate].
  destruct (read_msg _) as [msg|]; [|discriminate].
  intros H. injection H as <-. cbn. repeat split.
  - apply or_default_nonempty. discriminate.
  - exists msg. repeat split.
    + intros [->| ->]; reflexivity.
    + intros a -> Ha. destruct a; [contradiction|reflexivity].
    + destruct (msg_body msg) as [[|x b]|]; reflexivity.
  - rewrite H. reflexivity.
  - rewrite H. reflexivity.
Qed.

Lemma prepare_letter_response_fields_witness :
  exists letter,
    prepare_letter_response (fun _ => true) (fun _ => Some letter_msg)
      LetterMode.example_manager
      {| r_id := lit "dup"; r_description := lit "dup"; r_action := lit "unknown";
         r_msg_file := lit "letter.msg"; r_msg_filename := lit "letter.msg";
         r_priority := 50; r_score := 150; r_comment := [] |} = Some letter /\
    l_to letter = FALLBACK_TO /\ l_notify_csa letter = true.
Proof.
  set (tc := {| r_id := lit "dup"; r_description := lit "dup"; r_action := lit "unknown";
                r_msg_file := lit "letter.msg"; r_msg_filename := lit "letter.msg";
                r_priority := 50%Z; r_score := 150%Q; r_comment := [] |}).
  destruct (prepare_letter_response (fun _ => true) (fun _ => Some letter_msg)
              LetterMode.example_manager tc) as [letter|] eqn:E; [|discriminate E].
  exists letter. split; [reflexivity|].
  destruct (prepare_letter_response_fields (fun _ => true) (fun _ => Some letter_msg)
              LetterMode.example_manager tc letter E)
    as (_ & (msg & Hmsg & Hto & _) & _ & _ & _ & Hact).
  split.
  - apply Hto. injection Hmsg as <-. left. reflexivity.
  - apply Hact. reflexivity.
Defined.

End LetterFacts.

(** * Further properties of the citation validator *)

Module LabelFacts.
Import PyStr Re Sources StrFacts ReFacts SourcesFacts.

Lemma last_segment_suffix (sep : N) (s : str) : exists a, s = a ++ last_segment sep s.
Proof.
  induction s as [|c s IH]; [exists []; reflexivity|].
  simpl. destruct (existsb (N.eqb sep) s).
  - destruct IH as [a Ha]. exists (c :: a). simpl. rewrite <- Ha. reflexivity.
  - destruct (c =? sep); [exists [c]|exists []]; reflexivity.
Qed.

(** A label matches a path exactly when one is a substring of the other:
    the comparison with the file name of the path adds nothing, a file
    name being the end of its path.  So the label of an empty list item
    matches every path. *)
Theorem label_matches_substring (label path : str) :
  label_matches label path = (str_in path label || str_in label path) /\
  label_matches [] path = true /\
  label_matches (last_segment 47 path) path = true.
Proof.
  assert (H : forall l, str_eqb l (last_segment 47 path) = true -> str_in l path = true).
  { intros l E. apply str_eqb_eq in E. subst l.
    destruct (last_segment_suffix 47 path) as [a Ha].
    apply str_in_spec. exists a, []. rewrite app_nil_r. exact Ha. }
  repeat split.
  - unfold label_matches.
    destruct (str_eqb label (last_segment 47 path)) eqn:E.
    + rewrite (H label E), !orb_true_r. reflexivity.
    + rewrite orb_false_r. reflexivity.
  - unfold label_matches. destruct path; reflexivity.
  - unfold label_matches. rewrite (H _ (proj2 (str_eqb_eq _ _) eq_refl)).
    rewrite orb_true_r. reflexivity.
Qed.

(** The link of a label is the link of the first actual document path
    that matches the label and is a key of the link index; there is none
    exactly when no matching path is a key. *)
Theorem find_link_spec (label : str) (actual_docs : list str) (links_dict : gmap str str) :
  (forall link,
      find_link label actual_docs links_dict = Some link <->
      exists i path,
        actual_docs !! i = Some path /\ label_matches label path = true /\
        links_dict !! path = Some link /\
        forall j other, (j < i)%nat -> actual_docs !! j = Some other ->
          label_matches label other = true -> links_dict !! other = None) /\
  (find_link label actual_docs links_dict = None <->
   forall path, path ∈ actual_docs -> label_matches label path = true ->
                links_dict !! path = None).
Proof.
  induction actual_docs as [|p rest [IHs IHn]].
  - split.
    + intros link. split; [discriminate|]. intros (i & path & H & _). discriminate.
    + split; [intros _ path H; inversion H|reflexivity].
  - split.
    + intros link. cbn [find_link].
      destruct (label_matches label p) eqn:Em; [destruct (links_dict !! p) as [l|] eqn:El|].
      * split.
        -- intros H. injection H as <-. exists O, p. repeat split; auto.
           intros j other Hj. lia.
        -- intros (i & path & Hi & Hm & Hl & Hfirst). destruct i as [|i].
           ++ simpl in Hi. injection Hi as <-. congruence.
           ++ specialize (Hfirst O p (Nat.lt_0_succ i) eq_refl Em). congruence.
      * rewrite IHs. split.
        -- intros (i & path & Hi & Hm & Hl & Hfirst). exists (S i), path. repeat split; auto.
           intros [|j] other Hj Ho Hmo; simpl in Ho.
           ++ injection Ho as <-. exact El.
           ++ apply (Hfirst j other); [lia|exact Ho|exact Hmo].
        -- intros (i & path & Hi & Hm & Hl & Hfirst). destruct i as [|i].
           ++ simpl in Hi. injection Hi as <-. congruence.
           ++ exists i, path. repeat split; auto.
              intros j other Hj Ho. apply (Hfirst (S j) other); [lia|exact Ho].
      * rewrite IHs. split.
        -- intros (i & path & Hi & Hm & Hl & Hfirst). exists (S i), path. repeat split; auto.
           intros [|j] other Hj Ho Hmo; simpl in Ho.
           ++ injection Ho as <-. congruence.
           ++ apply (Hfirst j other); [lia|exact Ho|exact Hmo].
        -- intros (i & path & Hi & Hm & Hl & Hfirst). destruct i as [|i].
           ++ simpl in Hi. injection Hi as <-. congruence.
           ++ exists i, path. repeat split; auto.
              intros j other Hj Ho. apply (Hfirst (S j) other); [lia|exact Ho].
    + cbn [find_link].
      destruct (label_matches label p) eqn:Em; [destruct (links_dict !! p) as [l|] eqn:El|].
      * split; [discriminate|]. intros H. specialize (H p ltac:(left) Em). congruence.
      * rewrite IHn. split.
        -- intros H path Hin Hm. apply elem_of_cons in Hin as [->|Hin]; [exact El|].
           exact (H path Hin Hm).
        -- intros H path Hin. apply H. right. exact Hin.
      * rewrite IHn. split.
        -- intros H path Hin Hm. apply elem_of_cons in Hin as [->|Hin]; [congruence|].
           exact (H path Hin Hm).
        -- intros H path Hin. apply H. right. exact Hin.
Qed.

End LabelFacts.

(** * The validator and backslashes *)

Module ReturnFacts.
Import PyStr Re Sources StrFacts ReFacts SourcesFacts.

Lemma elem_of_drop_inv (x : N) (k : nat) (s : str) : x ∈ drop k s -> x ∈ s.
Proof. intros H. rewrite <- (take_drop k s). apply elem_of_app. right. exact H. Qed.

Lemma elem_of_take_inv (x : N) (k : nat) (s : str) : x ∈ take k s -> x ∈ s.
Proof. intros H. rewrite <- (take_drop k s). apply elem_of_app. left. exact H. Qed.

(** A character other than the backslash is copied into the template. *)
Lemma parse_template_step (fuel : nat) (c : N) (r : str) :
  c <> 92 ->
  parse_template_fuel (S fuel) (c :: r) = cons (TChar c) <$> parse_template_fuel fuel r.
Proof.
  intros Hc. destruct c as [|p]; [reflexivity|].
  repeat (destruct p as [p|p|]; try reflexivity).
  contradiction.
Qed.

(** A replacement without a backslash is taken literally. *)
Lemma parse_template_literal (r : str) : 92 ∉ r -> parse_template r = Some (map TChar r).
Proof.
  unfold parse_template. induction r as [|c r IH]; intros Hr; [reflexivity|].
  apply not_elem_of_cons in Hr as [Hc Hr].
  cbn [length]. rewrite parse_template_step by congruence. rewrite (IH Hr). reflexivity.
Qed.

Lemma try_greedy_some (cont : str -> option (nat * str)) (s : str) (lo k n : nat) (g : str) :
  try_greedy cont s lo k = Some (n, g) ->
  exists k' n', cont (drop k' s) = Some (n', g).
Proof.
  induction k as [|k IH]; rewrite try_greedy_unfold.
  - destruct (cont (drop 0 s)) as [[n' g']|] eqn:E; [|discriminate].
    intros H. injection H as _ <-. eauto.
  - destruct (cont (drop (S k) s)) as [[n' g']|] eqn:E.
    + intros H. injection H as _ <-. eauto.
    + destruct (lo <=? k)%nat; [exact IH|discriminate].
Qed.

Lemma try_lazy_group (cont : str -> option (nat * str)) (s : str) (n : nat) (g : str) :
  try_lazy cont s = Some (n, g) -> g = take (length g) s.
Proof.
  revert n g. induction s as [|c s IH]; intros n g; cbn [try_lazy].
  - destruct (cont []) as [[n' g']|]; [|discriminate]. intros H. injection H as _ <-. reflexivity.
  - destruct (cont (c :: s)) as [[n' g']|].
    + intros H. injection H as _ <-. reflexivity.
    + fold (try_lazy cont). destruct (try_lazy cont s) as [[n' g']|] eqn:E; [|discriminate].
      intros H. injection H as _ <-. simpl. f_equal. exact (IH _ _ eq_refl).
Qed.

(** The text of group 1 is made of characters of the text matched
    against. *)
Lemma match_group_elem (ps : list piece) (s : str) (n : nat) (g : str) (x : N) :
  match_pieces ps s = Some (n, g) -> x ∈ g -> x ∈ s.
Proof.
  revert s n g. induction ps as [|[p|f lo|] ps IH]; intros s n g; cbn [match_pieces].
  - intros H Hx. injection H as _ <-. inversion Hx.
  - destruct (starts_with p s); [|discriminate].
    destruct (match_pieces ps (drop (length p) s)) as [[n' g']|] eqn:E; [|discriminate].
    intros H Hx. injection H as _ <-. eapply elem_of_drop_inv, IH; eauto.
  - cbv zeta. destruct (lo <=? span f s)%nat; [|discriminate].
    intros H Hx. apply try_greedy_some in H as (k' & n' & H).
    eapply elem_of_drop_inv, IH; eauto.
  - intros H Hx. apply try_lazy_group in H. rewrite H in Hx.
    eapply elem_of_take_inv. exact Hx.
Qed.

Lemma search_elem (ps : list piece) (s g : str) (x : N) :
  search ps s = Some g -> x ∈ g -> x ∈ s.
Proof.
  induction s as [|c s IH]; cbn [search].
  - destruct (match_pieces ps []) as [[n g']|] eqn:E; [|discriminate].
    intros H Hx. injection H as <-. eapply match_group_elem; eauto.
  - destruct (match_pieces ps (c :: s)) as [[n g']|] eqn:E.
    + intros H Hx. injection H as <-. eapply match_group_elem; eauto.
    + intros H Hx. right. exact (IH H Hx).
Qed.

Lemma findall_elem (ps : list piece) (s g : str) (x : N) :
  g ∈ findall ps s -> x ∈ g -> x ∈ s.
Proof.
  unfold findall. generalize O. induction s as [|c s IH]; intros k; cbn [findall_from].
  - intros H. inversion H.
  - destruct k as [|k].
    + destruct (match_pieces ps (c :: s)) as [[n g']|] eqn:E.
      * intros H Hx. apply elem_of_cons in H as [->|H].
        -- eapply match_group_elem; eauto.
        -- right. exact (IH _ H Hx).
      * intros H Hx. right. exact (IH _ H Hx).
    + intros H Hx. right. exact (IH _ H Hx).
Qed.

Lemma find_link_value (label : str) (actual_docs : list str) (links_dict : gmap str str)
    (link : str) :
  find_link label actual_docs links_dict = Some link ->
  exists path, links_dict !! path = Some link.
Proof.
  induction actual_docs as [|p rest IH]; cbn [find_link]; [discriminate|].
  destruct (label_matches label p); [|exact IH].
  destruct (links_dict !! p) as [l|] eqn:E; [|exact IH].
  intros H. injection H as <-. eauto.
Qed.

Lemma render_item_elem (x : N) (item : str) (link : option str) :
  x ∈ render_item (item, link) -> x <> 92 \/ x ∈ item \/ (exists l, link = Some l /\ x ∈ l).
Proof.
  destruct (N.eq_dec x 92) as [->|Hx]; [|left; exact Hx].
  intros H. right. destruct link as [l|]; cbn [render_item] in H.
  - repeat (apply elem_of_cons in H as [H|H]; [discriminate H|]).
    apply elem_of_app in H as [H|H]; [right; eauto|].
    repeat (apply elem_of_cons in H as [H|H]; [discriminate H|]).
    apply elem_of_app in H as [H|H]; [left; exact H|].
    vm_compute in H. elem_of_literal H.
  - repeat (apply elem_of_cons in H as [H|H]; [discriminate H|]).
    apply elem_of_app in H as [H|H]; [left; exact H|].
    vm_compute in H. elem_of_literal H.
Qed.

(** The rebuilt list of an answer, for the entries of [valid_sources]. *)
Lemma rebuilt_section_no_backslash (vs : list (str * option str)) :
  (forall item link, (item, link) ∈ vs ->
     (92 ∉ item) /\ forall l, link = Some l -> 92 ∉ l) ->
  92 ∉ H3_SOURCES ++ OL_OPEN ++ concat (map render_item vs) ++ OL_CLOSE.
Proof.
  intros Hvs. rewrite !elem_of_app. intros [H|[H|[H|H]]].
  - vm_compute in H. elem_of_literal H.
  - vm_compute in H. elem_of_literal H.
  - apply list_elem_of_In, in_concat in H as (r & Hr & Hx).
    apply in_map_iff in Hr as ([item link] & <- & Hin).
    apply list_elem_of_In in Hin, Hx.
    destruct (Hvs item link Hin) as [Hi Hl].
    apply render_item_elem in Hx as [Hx|[Hx|(l0 & -> & Hx)]]; [congruence|contradiction|].
    exact (Hl l0 eq_refl Hx).
  - vm_compute in H. elem_of_literal H.
Qed.

(** [process_sources] returns, it does not raise, on every answer and
    link index without a backslash: a replacement is then taken
    literally. *)
Theorem process_sources_returns (response_text : str) (actual_docs : list str)
    (links_dict : gmap str str) :
  92 ∉ response_text ->
  (forall path link, links_dict !! path = Some link -> 92 ∉ link) ->
  is_Some (process_sources response_text actual_docs links_dict).
Proof.
  intros Ht Hl. unfold process_sources.
  destruct (search sources_re response_text) as [content|] eqn:Es;
    [|rewrite invalidate_eq; eauto].
  rewrite mapM_check_item. cbn [mbind option_bind].
  destruct (negb _); [rewrite invalidate_eq; eauto|].
  rewrite sub_literal; [eauto|].
  apply parse_template_literal, rebuilt_section_no_backslash.
  intros item link Hin.
  apply list_elem_of_In, in_map_iff in Hin as (item' & Heq & Hin). injection Heq as <- <-.
  apply list_elem_of_In in Hin. split.
  - intros H. apply Ht. eapply search_elem; [exact Es|]. eapply findall_elem; eauto.
  - intros l Hfl. apply find_link_value in Hfl as [path Hp]. exact (Hl path l Hp).
Qed.

Lemma process_sources_returns_witness :
  is_Some (process_sources answer_example [DOC_PATH] {[DOC_PATH := DOC_LINK]}).
Proof.
  apply process_sources_returns.
  - intros H. vm_compute in H. elem_of_literal H.
  - intros path link H. apply lookup_singleton_Some in H as [_ <-].
    intros H. vm_compute in H. elem_of_literal H.
Defined.

End ReturnFacts.

(** * The branch of the validator that links the sources *)

Module LinkedFacts.
Import PyStr Re Sources StrFacts ReFacts SourcesFacts ReturnFacts.

(** The first match of a scan: no match starts before [s], one starts
    at [s]. *)
Lemma search_first (ps : list piece) (pre s : str) (n : nat) (g : str) :
  (forall a1 a2, pre = a1 ++ a2 -> a2 <> [] -> match_pieces ps (a2 ++ s) = None) ->
  match_pieces ps s = Some (n, g) ->
  search ps (pre ++ s) = Some g.
Proof.
  intros Hpre Hs. induction pre as [|c pre IH].
  - destruct s; cbn [app search]; rewrite Hs; reflexivity.
  - assert (E : match_pieces ps ((c :: pre) ++ s) = None)
      by (apply (Hpre [] (c :: pre) eq_refl); discriminate).
    cbn [app] in E |- *. cbn [search]. rewrite E.
    apply IH. intros a1 a2 -> Ha. apply (Hpre (c :: a1) a2 eq_refl Ha).
Qed.

Lemma sub_with_first (ps : list piece) (repl : str -> str) (pre s : str) (n : nat) (g : str) :
  (forall a1 a2, pre = a1 ++ a2 -> a2 <> [] -> match_pieces ps (a2 ++ s) = None) ->
  match_pieces ps s = Some (n, g) -> s <> [] -> (0 < n)%nat ->
  sub_with ps repl (pre ++ s) = pre ++ repl (take n s) ++ sub_with ps repl (drop n s).
Proof.
  intros Hpre Hs Hne Hn. induction pre as [|c pre IH].
  - destruct s as [|c s]; [contradiction|]. cbn [app].
    rewrite (sub_with_some _ _ _ _ _ _ Hs).
    destruct n as [|n]; [lia|]. reflexivity.
  - assert (E : match_pieces ps ((c :: pre) ++ s) = None)
      by (apply (Hpre [] (c :: pre) eq_refl); discriminate).
    cbn [app] in E |- *. rewrite (sub_with_none _ _ _ _ E).
    rewrite IH; [reflexivity|].
    intros a1 a2 -> Ha. apply (Hpre (c :: a1) a2 eq_refl Ha).
Qed.

(** The first [</ol>] after a text that has none. *)
Lemma find_first_close (X post : str) :
  str_in OL_CLOSE X = false ->
  find_first OL_CLOSE (X ++ OL_CLOSE ++ post) = Some (length X).
Proof.
  induction X as [|c X IH]; intros H.
  - cbn [app]. unfold find_first. destruct (OL_CLOSE ++ post) eqn:E.
    + discriminate E.
    + rewrite <- E, starts_with_app. reflexivity.
  - cbn [str_in] in H. apply orb_false_elim in H as [H0 H].
    cbn [app find_first].
    destruct (starts_with OL_CLOSE (c :: X ++ OL_CLOSE ++ post)) eqn:E.
    + exfalso. apply starts_with_spec in E as [t E].
      change (OL_CLOSE ++ t) with (60 :: (tail OL_CLOSE ++ t)) in E.
      change (OL_CLOSE ++ post) with (60 :: (tail OL_CLOSE ++ post)) in E.
      injection E as -> E. symmetry in E.
      destruct (window_before (tail OL_CLOSE) t X (tail OL_CLOSE ++ post) 60 E) as [z ->].
      { intros Hin. vm_compute in Hin. elem_of_literal Hin. }
      enough (starts_with OL_CLOSE (60 :: tail OL_CLOSE ++ z) = true) by congruence.
      change (60 :: tail OL_CLOSE ++ z) with (OL_CLOSE ++ z). apply starts_with_app.
    + rewrite IH by exact H. reflexivity.
Qed.

(** No Sources section starts in a text without the heading. *)
Lemma sources_not_before (a1 a2 y : str) :
  str_in H3_SOURCES (a1 ++ a2) = false -> a2 <> [] ->
  match_pieces sources_re (a2 ++ H3_SOURCES ++ y) = None.
Proof.
  intros Hpre Ha. rewrite match_sources.
  destruct (sources_head (a2 ++ H3_SOURCES ++ y)) as [w|] eqn:E; [|reflexivity].
  exfalso. apply sources_head_cut in E; [|exact Ha].
  apply sources_head_window in E as (W & r & -> & _ & _).
  enough (str_in H3_SOURCES (a1 ++ (H3_SOURCES ++ W ++ OL_OPEN) ++ r) = true) by congruence.
  apply str_in_spec. exists a1, ((W ++ OL_OPEN) ++ r). rewrite <- !app_assoc. reflexivity.
Qed.

Lemma search_sources_absent (s : str) :
  str_in H3_SOURCES s = false -> search sources_re s = None.
Proof.
  intros H. apply search_none. intros pre post -> .
  apply matches_false. destruct (match_pieces sources_re post) as [[n g]|] eqn:E; [|reflexivity].
  exfalso. apply sources_starts in E. apply starts_with_spec in E as [t ->].
  enough (str_in H3_SOURCES (pre ++ H3_SOURCES ++ t) = true) by congruence.
  apply str_in_spec. eauto.
Qed.

(** The match of the Sources pattern at a section. *)
Lemma match_sources_section (W X post : str) :
  forallb isspace W = true -> str_in OL_CLOSE X = false ->
  match_pieces sources_re (H3_SOURCES ++ W ++ OL_OPEN ++ X ++ OL_CLOSE ++ post)
  = Some (length (H3_SOURCES ++ W ++ OL_OPEN ++ X ++ OL_CLOSE), X).
Proof.
  intros HW HX. rewrite match_sources.
  assert (Hh : sources_head (H3_SOURCES ++ W ++ OL_OPEN ++ X ++ OL_CLOSE ++ post)
               = Some (length (H3_SOURCES ++ W ++ OL_OPEN))).
  { apply sources_head_window. exists W, (X ++ OL_CLOSE ++ post).
    rewrite <- !app_assoc. auto. }
  rewrite Hh.
  replace (H3_SOURCES ++ W ++ OL_OPEN ++ X ++ OL_CLOSE ++ post)
    with ((H3_SOURCES ++ W ++ OL_OPEN) ++ X ++ OL_CLOSE ++ post)
    by (rewrite <- !app_assoc; reflexivity).
  rewrite drop_app_length, (find_first_close X post HX), take_app_length.
  f_equal. f_equal. rewrite !length_app. change (length OL_CLOSE) with 5%nat. lia.
Qed.

(** With a linked item, an answer with one Sources section gets the
    section replaced by the rebuilt one, and nothing else is changed:
    the text before and after it, citation markers and confidence
    marker included, stays as it is; the whitespace between heading and
    list and what stands between the items are dropped. *)
Theorem linked_section_replaced (pre W X post : str) (actual_docs : list str)
    (links_dict : gmap str str) :
  str_in H3_SOURCES pre = false ->
  forallb isspace W = true ->
  str_in OL_CLOSE X = false ->
  str_in H3_SOURCES post = false ->
  92 ∉ X ->
  (forall path link, links_dict !! path = Some link -> 92 ∉ link) ->
  (exists item, item ∈ findall li_re X /\
                is_Some (find_link (clean_label item) actual_docs links_dict)) ->
  process_sources (pre ++ H3_SOURCES ++ W ++ OL_OPEN ++ X ++ OL_CLOSE ++ post)
    actual_docs links_dict
  = Some (pre ++ H3_SOURCES ++ OL_OPEN
          ++ concat (map (fun item =>
                            render_item (item, find_link (clean_label item)
                                                 actual_docs links_dict))
                       (findall li_re X))
          ++ OL_CLOSE ++ post).
Proof.
  intros Hpre HW HX Hpost HbX Hbl (item0 & Hin0 & Hl0).
  pose proof (match_sources_section W X post HW HX) as Hm.
  assert (Hbefore : forall a1 a2, pre = a1 ++ a2 -> a2 <> [] ->
            match_pieces sources_re
              (a2 ++ H3_SOURCES ++ W ++ OL_OPEN ++ X ++ OL_CLOSE ++ post) = None).
  { intros a1 a2 -> Ha. apply (sources_not_before a1 a2 _ Hpre Ha). }
  unfold process_sources.
  rewrite (search_first _ _ _ _ _ Hbefore Hm).
  rewrite mapM_check_item. cbn [mbind option_bind].
  replace (existsb _ _) with true.
  2:{ symmetry. apply existsb_exists.
      exists (item0, find_link (clean_label item0) actual_docs links_dict). split.
      - apply in_map_iff. exists item0. split; [reflexivity|].
        apply list_elem_of_In. exact Hin0.
      - apply bool_decide_eq_true. exact Hl0. }
  cbn [negb].
  rewrite sub_literal.
  2:{ apply parse_template_literal, rebuilt_section_no_backslash.
      intros item link Hin.
      apply list_elem_of_In, in_map_iff in Hin as (item' & Heq & Hin). injection Heq as <- <-.
      apply list_elem_of_In in Hin. split.
      - intros H. apply HbX. eapply findall_elem; eauto.
      - intros l Hfl. apply find_link_value in Hfl as [path Hp]. exact (Hbl path l Hp). }
  f_equal.
  rewrite (sub_with_first _ _ _ _ _ _ Hbefore Hm).
  - rewrite map_map. f_equal. rewrite <- !app_assoc. do 4 f_equal.
    replace (H3_SOURCES ++ W ++ OL_OPEN ++ X ++ OL_CLOSE ++ post)
      with ((H3_SOURCES ++ W ++ OL_OPEN ++ X ++ OL_CLOSE) ++ post)
      by (rewrite <- !app_assoc; reflexivity).
    rewrite drop_app_length.
    apply sub_with_nowhere, search_sources_absent, Hpost.
  - discriminate.
  - rewrite length_app. change (length H3_SOURCES) with 18%nat. lia.
Qed.

Lemma linked_section_replaced_witness :
  process_sources
    (lit "<p>Первое действие [1], второе действие [2]</p>" ++ H3_SOURCES ++ [] ++ OL_OPEN
     ++ lit "<li>1.docx</li><li>2.pdf</li>" ++ OL_CLOSE ++ CONF_SEVEN)
    [DOC_PATH] {[DOC_PATH := DOC_LINK]}
  = Some (lit "<p>Первое действие [1], второе действие [2]</p>" ++ H3_SOURCES ++ OL_OPEN
          ++ concat (map (fun item =>
                            render_item (item, find_link (clean_label item)
                                                 [DOC_PATH] {[DOC_PATH := DOC_LINK]}))
                       (findall li_re (lit "<li>1.docx</li><li>2.pdf</li>")))
          ++ OL_CLOSE ++ CONF_SEVEN).
Proof.
  apply linked_section_replaced.
  - reflexivity.
  - reflexivity.
  - reflexivity.
  - reflexivity.
  - intros H. vm_compute in H. elem_of_literal H.
  - intros path link H. apply lookup_singleton_Some in H as [_ <-].
    intros H. vm_compute in H. elem_of_literal H.
  - exists (lit "1.docx"). split.
    + vm_compute. left.
    + vm_compute. eauto.
Defined.

End LinkedFacts.

(** * The templated answer of letter mode *)

Module TemplatedFacts.
Import PyStr Re Sources Templates Letters Messages LetterMode.
Import StrFacts ReFacts SourcesFacts.

Lemma matches_conf_head (c : N) (s : str) : c <> 1058 -> matches conf_re (c :: s) = false.
Proof. intros H. apply matches_false, conf_head, H. Qed.

Lemma matches_sources_head (c : N) (s : str) : c <> 60 -> matches sources_re (c :: s) = false.
Proof.
  intros H. apply matches_false. rewrite match_sources. unfold sources_head.
  change H3_SOURCES with (60 :: tail H3_SOURCES).
  rewrite starts_with_cons_ne by exact H. reflexivity.
Qed.

(** A pattern that starts with [x] matches nowhere in a text without
    [x], whatever follows the text. *)
Lemma nowhere_without (O : str -> bool) (x : N) (s t : str) :
  (forall c r, c <> x -> O (c :: r) = false) ->
  x ∉ s -> nowhere O t -> nowhere O (s ++ t).
Proof.
  intros HO Hs. apply nowhere_app_literal, Forall_forall.
  intros c Hc r. apply HO. intros ->. exact (Hs Hc).
Qed.

(** An answer in which none of the three patterns matches is a fixed
    point of the three substitutions. *)
Lemma invalidate_clean (s : str) :
  search marker_re s = None -> search conf_re s = None -> search sources_re s = None ->
  invalidate s = Some s.
Proof.
  intros Hm Hc Hs. rewrite invalidate_eq.
  rewrite (sub_with_nowhere marker_re _ s Hm), (sub_with_nowhere conf_re _ s Hc),
    (sub_with_nowhere sources_re _ s Hs). reflexivity.
Qed.

(** An answer with no Sources section, no citation marker and no
    confidence marker is returned as it is, whatever the documents and the
    link index: no "not found" section is added to it. *)
Theorem clean_answer_unchanged (response_text : str) (actual_docs : list str)
    (links_dict : gmap str str) :
  search sources_re response_text = None ->
  search marker_re response_text = None ->
  search conf_re response_text = None ->
  process_sources response_text actual_docs links_dict = Some response_text.
Proof.
  intros Hs Hm Hc. unfold process_sources. rewrite Hs.
  apply invalidate_clean; assumption.
Qed.

Lemma clean_answer_unchanged_witness :
  process_sources (lit "<p>Ответ</p>") [DOC_PATH] {[DOC_PATH := DOC_LINK]}
  = Some (lit "<p>Ответ</p>").
Proof. apply clean_answer_unchanged; reflexivity. Defined.

(** What follows the description in the templated answer. *)
Lemma templated_rest_clean (action : str) (ps : list piece) :
  ps = marker_re \/ ps = conf_re \/ ps = sources_re ->
  nowhere (matches ps)
    (TEMPLATED_MID ++ action_info action ++ TEMPLATED_TAIL ++ [] ++ lit "</div>").
Proof.
  intros Hps. apply search_none. unfold action_info.
  repeat match goal with |- context [str_eqb ?a ?b] => destruct (str_eqb a b) end;
    destruct Hps as [->|[->| ->]]; vm_compute; reflexivity.
Qed.

Lemma templated_head_sources (t : str) :
  nowhere (matches sources_re) t -> nowhere (matches sources_re) (TEMPLATED_HEAD ++ t).
Proof.
  intros Ht. unfold TEMPLATED_HEAD. cbn [app].
  repeat (apply nowhere_cons; split; [reflexivity|]). exact Ht.
Qed.

(** None of the three patterns matches in the templated answer of a
    description without [[], [<] and capital [Т]. *)
Lemma templated_text_clean (template_config : match_result) :
  91 ∉ r_description template_config ->
  60 ∉ r_description template_config ->
  1058 ∉ r_description template_config ->
  search sources_re (templated_text template_config) = None /\
  search marker_re (templated_text template_config) = None /\
  search conf_re (templated_text template_config) = None.
Proof.
  intros H91 H60 H1058. unfold templated_text. cbv zeta.
  rewrite !search_none. repeat split.
  - apply templated_head_sources.
    apply (nowhere_without _ 60); [exact matches_sources_head|exact H60|].
    apply templated_rest_clean. auto.
  - apply nowhere_app_literal; [unfold TEMPLATED_HEAD; literal_forall matches_marker_head|].
    apply (nowhere_without _ 91); [exact matches_marker_head|exact H91|].
    apply templated_rest_clean. auto.
  - apply nowhere_app_literal; [unfold TEMPLATED_HEAD; literal_forall matches_conf_head|].
    apply (nowhere_without _ 1058); [exact matches_conf_head|exact H1058|].
    apply templated_rest_clean. auto.
Qed.

(** When a template matches and its letter can be read, letter mode
    answers with the templated text as it was built, whatever the
    retrieved documents and the link index, and with the letter's
    addressee, copy, subject and body as the mail data; this for a
    template description without [[], [<] and capital [Т]. *)
Theorem templated_answer_text (lower : str -> str) (path_exists : str -> bool)
    (read_msg : str -> option msg_content) (self : manager)
    (user_message context : str) (actual_docs : list str) (links_dict : gmap str str)
    (template_config : match_result) (response_data : letter_response) :
  find_matching_template lower (templates self) user_message context
    = Some template_config ->
  prepare_letter_response path_exists read_msg self template_config
    = Some response_data ->
  91 ∉ r_description template_config ->
  60 ∉ r_description template_config ->
  1058 ∉ r_description template_config ->
  templated_answer lower path_exists read_msg self user_message context
    actual_docs links_dict
  = Some (Returns (MessagePayload (templated_text template_config)
                     (Some (JObj [ (lit "to", JStr (l_to response_data));
                                   (lit "cc", JStr (l_cc response_data));
                                   (lit "subject", JStr (l_subject response_data));
                                   (lit "body", JStr (l_response response_data)) ])))).
Proof.
  intros Hf Hp H91 H60 H1058. unfold templated_answer. rewrite Hf, Hp.
  destruct (templated_text_clean template_config H91 H60 H1058) as (Hs & Hm & Hc).
  unfold process_sources. rewrite Hs, (invalidate_clean _ Hm Hc Hs). reflexivity.
Qed.

Lemma templated_answer_text_witness :
  exists template_config response_data,
    templated_answer lower_basic (fun _ => true) (fun _ => Some letter_msg)
      example_manager query_duplicate_po [] [DOC_PATH] {[DOC_PATH := DOC_LINK]}
    = Some (Returns (MessagePayload (templated_text template_config)
                       (Some (JObj [ (lit "to", JStr (l_to response_data));
                                     (lit "cc", JStr (l_cc response_data));
                                     (lit "subject", JStr (l_subject response_data));
                                     (lit "body", JStr (l_response response_data)) ])))).
Proof.
  destruct (find_matching_template lower_basic (templates example_manager)
              query_duplicate_po []) as [template_config|] eqn:Ef; [|discriminate Ef].
  destruct (prepare_letter_response (fun _ => true) (fun _ => Some letter_msg)
              example_manager template_config) as [response_data|] eqn:Ep.
  - exists template_config, response_data.
    apply (templated_answer_text _ _ _ _ _ _ _ _ _ _ Ef Ep);
      injection Ef as <-; intros H; vm_compute in H; elem_of_literal H.
  - injection Ef as <-. discriminate Ep.
Defined.

End TemplatedFacts.

(** * Further properties of the [/api/messages] error boundary *)

Module MessagesMore.
Import PyStr Messages MessageFacts.

Lemma messages_missing_text_witness :
  messages (fun _ => Some DatabaseError) (fun _ _ _ => Raises OtherException)
    (JObj [(MODE, JStr (lit "letter"))]) = invalid_input.
Proof. apply messages_missing_text. reflexivity. Defined.

Lemma messages_status_of_failure_witness :
  exists body,
    messages (fun _ => None) (fun _ _ _ => Raises RequestException)
      (JObj [(TEXT, JStr (lit "Duplicate PO")); (MODE, JStr (lit "letter"))])
    = Response 503 body.
Proof.
  apply (messages_status_of_failure (fun _ => None) (fun _ _ _ => Raises RequestException)
           [(TEXT, JStr (lit "Duplicate PO")); (MODE, JStr (lit "letter"))]
           (JStr (lit "Duplicate PO")) (JStr (lit "letter")) RequestException);
    reflexivity.
Defined.

(** For a JSON object as body, an exception leaves the handler exactly
    when the body has a [text] and either the insert into the database
    fails or the body has no [mode]: both stand before the [try]
    block. *)
Theorem messages_uncaught_iff (db_insert : json -> option exn)
    (try_body : json -> json -> json -> body_result) (d : list (str * json)) :
  (exists e, messages db_insert try_body (JObj d) = Uncaught e) <->
  exists user_message,
    dict_lookup TEXT d = Some user_message /\
    (is_Some (db_insert user_message) \/ dict_lookup MODE d = None).
Proof.
  unfold messages. destruct d as [|kv d].
  - split; [intros [e H]; discriminate H|intros (u & H & _); discriminate H].
  - cbn [falsy contains getitem].
    destruct (dict_lookup TEXT (kv :: d)) as [user_message|] eqn:Et.
    + rewrite bool_decide_eq_true_2 by eauto.
      destruct (db_insert user_message) as [e|] eqn:Edb.
      * split; [|eauto]. intros _. exists user_message. split; [reflexivity|].
        left. rewrite Edb. eauto.
      * destruct (dict_lookup MODE (kv :: d)) as [mode|] eqn:Em.
        -- split.
           ++ intros [e H]. destruct (try_body _ _ _) as [body|[]]; discriminate H.
           ++ intros (u & Hu & [Hdb|Hm]); [|discriminate Hm].
              injection Hu as <-. rewrite Edb in Hdb. destruct Hdb as [x Hx]. discriminate Hx.
        -- split; [|eauto]. intros _. exists user_message. split; [reflexivity|].
           right. reflexivity.
    + rewrite bool_decide_eq_false_2 by (intros [v Hv]; discriminate Hv).
      split; [intros [e H]; discriminate H|intros (u & H & _); discriminate H].
Qed.

End MessagesMore.
